(** * pysvf.ae.abstract_state: interval domain, address sets, abstract values
      and abstract states

    A shallow embedding of [src/pysvf/ae/abstract_state.py].

    Python integers are unbounded, so they are [Z]; [None] used as an
    infinite bound is [option Z]'s [None]; [&], [|] and [~] on Python
    integers are [Z.land], [Z.lor] and [Z.lnot] (both are two's complement
    on unbounded integers).  A [dict] keyed by integers is a [gmap Z _], a
    [set] of integers a [gset Z].

    The file has two layers.  The methods that build their result out of
    newly constructed objects and never write into an existing one (those
    of [IntervalValue], [AddressValue] and [AbstractValue] but the setters
    [set_to_top], [set_to_bottom] and [add_addr], and the merges of
    [AbstractState]) are modelled on values.  The methods whose meaning
    depends on which object is meant ([set_to_top], [set_to_bottom],
    [AbstractState.bottom], [top], [__getitem__], [load]) are modelled in
    [Module Obj] over an explicit object store, where a dictionary maps
    keys to references.  [AbstractState.store] puts its argument into a
    dictionary without looking at it and serves both layers.

    [AbstractValue.t] holds the instances that carry a tag, as
    [createInterval] and [createAddress] make them.  The instance that
    [AbstractValue()] alone makes, with no tag, is in [RawValue.t], and
    [RawState] gives the merges and the comparisons of [AbstractState] on
    states that may hold it. *)

From stdpp Require Import gmap list fin_maps.
From Stdlib Require Import ZArith Lia.

Open Scope Z_scope.

(** ** Exceptions *)

(** [raise ValueError(..)], a failing [assert], and a method called on
    [None]. *)
Inductive exn := ValueError | AssertionError | AttributeError.

Inductive result (A : Type) :=
| Ok (a : A)
| Raise (e : exn).
Arguments Ok {A} a.
Arguments Raise {A} e.

Definition bind {A B} (m : result A) (k : A → result B) : result B :=
  match m with
  | Ok a => k a
  | Raise e => Raise e
  end.

Notation "'do' x <- m ; k" := (bind m (fun x => k))
  (at level 10, x name, m at level 100, k at level 200).

(** ** class IntervalValue *)

Module IntervalValue.

(** An instance holds [_lb] and [_ub]; [None] is the infinite bound. *)
Record t := Interval { _lb : option Z; _ub : option Z }.

Definition top : t := Interval None None.

Definition bottom : t := Interval (Some 1) (Some 0).

Definition is_top (self : t) : bool :=
  match _lb self, _ub self with
  | None, None => true
  | _, _ => false
  end.

Definition is_bottom (self : t) : bool :=
  match _lb self, _ub self with
  | Some lb, Some ub => lb >? ub
  | _, _ => false
  end.

Definition contain (self other : t) : bool :=
  if is_bottom self then false
  else if is_bottom other then true
  else
    let lb_ok :=
      match _lb self with
      | None => true
      | Some slb =>
          match _lb other with
          | None => false
          | Some olb => slb <=? olb
          end
      end in
    let ub_ok :=
      match _ub self with
      | None => true
      | Some sub =>
          match _ub other with
          | None => false
          | Some oub => sub >=? oub
          end
      end in
    lb_ok && ub_ok.

Definition join (self other : t) : t :=
  if is_bottom self then Interval (_lb other) (_ub other)
  else if is_bottom other then Interval (_lb self) (_ub self)
  else
    let new_lb :=
      match _lb self, _lb other with
      | Some slb, Some olb => Some (Z.min slb olb)
      | _, _ => None
      end in
    let new_ub :=
      match _ub self, _ub other with
      | Some sub, Some oub => Some (Z.max sub oub)
      | _, _ => None
      end in
    Interval new_lb new_ub.

Definition meet (self other : t) : t :=
  if is_bottom self || is_bottom other then bottom
  else
    let new_lb :=
      match _lb self with
      | None => _lb other
      | Some slb =>
          match _lb other with
          | None => Some slb
          | Some olb => Some (Z.max slb olb)
          end
      end in
    let new_ub :=
      match _ub self with
      | None => _ub other
      | Some sub =>
          match _ub other with
          | None => Some sub
          | Some oub => Some (Z.min sub oub)
          end
      end in
    match new_lb, new_ub with
    | Some l, Some u => if l >? u then bottom else Interval new_lb new_ub
    | _, _ => Interval new_lb new_ub
    end.

Definition widening (self other : t) : t :=
  if is_bottom self then Interval (_lb other) (_ub other)
  else if is_bottom other then Interval (_lb self) (_ub self)
  else
    let new_lb :=
      match _lb self with
      | None => None
      | Some slb =>
          match _lb other with
          | None => None
          | Some olb => if olb <? slb then None else Some slb
          end
      end in
    let new_ub :=
      match _ub self with
      | None => None
      | Some sub =>
          match _ub other with
          | None => None
          | Some oub => if oub >? sub then None else Some sub
          end
      end in
    Interval new_lb new_ub.

Definition narrowing (self other : t) : t :=
  if is_bottom self || is_bottom other then bottom
  else
    let new_lb :=
      match _lb self, _lb other with
      | None, Some olb => Some olb
      | _, _ => _lb self
      end in
    let new_ub :=
      match _ub self, _ub other with
      | None, Some oub => Some oub
      | _, _ => _ub self
      end in
    Interval new_lb new_ub.

(** [==] on two bounds, each an [int] or [None]. *)
Definition bound_eqb (a b : option Z) : bool :=
  match a, b with
  | None, None => true
  | Some x, Some y => x =? y
  | _, _ => false
  end.

Definition equals (self other : t) : bool :=
  if is_bottom self && is_bottom other then true
  else if is_bottom self || is_bottom other then false
  else bound_eqb (_lb self) (_lb other) && bound_eqb (_ub self) (_ub other).

End IntervalValue.

Abbreviation IntervalValue := IntervalValue.t.
Abbreviation Interval := IntervalValue.Interval.

(** ** class AddressValue *)

Module AddressValue.

Definition _ADDR_HIGH_BYTE : Z := 0x7F000000.
Definition _ADDR_MASK : Z := 0xFF000000.

(** An instance holds the set [_addrs]. *)
Record t := Address { _addrs : gset Z }.

Definition getVirtualMemAddress (idx : Z) : Z :=
  Z.lor _ADDR_HIGH_BYTE idx.

Definition isVirtualMemAddress (val : Z) : bool :=
  Z.land val _ADDR_MASK =? _ADDR_HIGH_BYTE.

Definition getInternalID (idx : Z) : Z :=
  if isVirtualMemAddress idx then Z.land idx (Z.lnot _ADDR_MASK)
  else idx.

Definition get_addrs (self : t) : gset Z := _addrs self.

Definition contains_addr (self : t) (addr : Z) : bool :=
  bool_decide (addr ∈ _addrs self).

Definition join (self other : t) : t :=
  Address (_addrs self ∪ _addrs other).

Definition meet (self other : t) : t :=
  Address (_addrs self ∩ _addrs other).

Definition equals (self other : t) : bool :=
  bool_decide (_addrs self = _addrs other).

End AddressValue.

Abbreviation AddressValue := AddressValue.t.
Abbreviation Address := AddressValue.Address.

(** ** class AbstractValueType, class AbstractValue *)

Inductive AbstractValueType := INTERVAL | ADDRESS.

Module AbstractValue.

(** [_type] selects which of [_interval] and [_address] is set: the two
    constructors stand for the instances made by [createInterval] and
    [createAddress] (and by the merges below, which fill the same
    fields).  The instance [AbstractValue()] itself returns, whose three
    fields are [None], is not of this type: it is [RawValue.Untagged]
    below. *)
Inductive t :=
| IntervalV (_interval : IntervalValue)
| AddressV (_address : AddressValue).

Definition _type (self : t) : AbstractValueType :=
  match self with
  | IntervalV _ => INTERVAL
  | AddressV _ => ADDRESS
  end.

Definition createInterval (lb ub : option Z) : t :=
  IntervalV (Interval lb ub).

Definition createAddress (addresses : gset Z) : t :=
  AddressV (Address addresses).

Definition isInterval (self : t) : bool :=
  match self with IntervalV _ => true | AddressV _ => false end.

Definition isAddr (self : t) : bool :=
  match self with IntervalV _ => false | AddressV _ => true end.

Definition getInterval (self : t) : result IntervalValue :=
  match self with
  | IntervalV i => Ok i
  | AddressV _ => Raise AssertionError
  end.

Definition getAddress (self : t) : result AddressValue :=
  match self with
  | AddressV a => Ok a
  | IntervalV _ => Raise AssertionError
  end.

Definition join (self other : t) : result t :=
  match self, other with
  | IntervalV si, IntervalV oi => Ok (IntervalV (IntervalValue.join si oi))
  | AddressV sa, AddressV oa => Ok (AddressV (AddressValue.join sa oa))
  | _, _ => Raise ValueError
  end.

Definition meet (self other : t) : result t :=
  match self, other with
  | IntervalV si, IntervalV oi => Ok (IntervalV (IntervalValue.meet si oi))
  | AddressV sa, AddressV oa => Ok (AddressV (AddressValue.meet sa oa))
  | _, _ => Raise ValueError
  end.

Definition equals (self other : t) : bool :=
  match self, other with
  | IntervalV si, IntervalV oi => IntervalValue.equals si oi
  | AddressV sa, AddressV oa => AddressValue.equals sa oa
  | _, _ => false
  end.

End AbstractValue.

Abbreviation AbstractValue := AbstractValue.t.
Abbreviation IntervalV := AbstractValue.IntervalV.
Abbreviation AddressV := AbstractValue.AddressV.

(** ** class AbstractState *)

Module AbstractState.

(** The two dictionaries of an instance.  [V] is what a dictionary holds
    for a key: an abstract value in the value layer, a reference to an
    [AbstractValue] instance in [Module Obj]. *)
Record t (V : Type) := State {
  _varToAbsVal : gmap Z V;
  _addrToAbsVal : gmap Z V
}.
Arguments State {V} _ _.
Arguments _varToAbsVal {V} _.
Arguments _addrToAbsVal {V} _.

(** *** widening, narrowing

    Both methods run the same loop once per dictionary; the loop is
    [widening_dict] (resp. [narrowing_dict]) and its body
    [widening_key].  The body's last [else] is only reached for a key of
    one of the two dictionaries, so the case of a key in neither, which
    the union of the key sets excludes, leaves [result] as it is. *)

Definition widening_key (self other : gmap Z AbstractValue) (key : Z)
    (result : gmap Z AbstractValue) : gmap Z AbstractValue :=
  match self !! key, other !! key with
  | Some sv, Some ov =>
      match sv, ov with
      | IntervalV si, IntervalV oi =>
          <[key := IntervalV (IntervalValue.widening si oi)]> result
      | AddressV sa, AddressV oa =>
          <[key := AddressV (AddressValue.join sa oa)]> result
      | _, _ => result
      end
  | Some sv, None => <[key := sv]> result
  | None, Some ov => <[key := ov]> result
  | None, None => result
  end.

Definition widening_dict (self other : gmap Z AbstractValue)
    : gmap Z AbstractValue :=
  let all_keys : gset Z := dom self ∪ dom other in
  set_fold (widening_key self other) ∅ all_keys.

Definition widening (self other : t AbstractValue) : t AbstractValue :=
  State (widening_dict (_varToAbsVal self) (_varToAbsVal other))
        (widening_dict (_addrToAbsVal self) (_addrToAbsVal other)).

Definition narrowing_key (self other : gmap Z AbstractValue) (key : Z)
    (result : gmap Z AbstractValue) : gmap Z AbstractValue :=
  match self !! key, other !! key with
  | Some sv, Some ov =>
      match sv, ov with
      | IntervalV si, IntervalV oi =>
          <[key := IntervalV (IntervalValue.narrowing si oi)]> result
      | AddressV sa, AddressV oa =>
          <[key := AddressV (AddressValue.meet sa oa)]> result
      | _, _ => result
      end
  | Some sv, None => <[key := sv]> result
  | None, Some ov => <[key := ov]> result
  | None, None => result
  end.

Definition narrowing_dict (self other : gmap Z AbstractValue)
    : gmap Z AbstractValue :=
  let all_keys : gset Z := dom self ∪ dom other in
  set_fold (narrowing_key self other) ∅ all_keys.

Definition narrowing (self other : t AbstractValue) : t AbstractValue :=
  State (narrowing_dict (_varToAbsVal self) (_varToAbsVal other))
        (narrowing_dict (_addrToAbsVal self) (_addrToAbsVal other)).

(** *** joinWith

    One iteration of [for key, value in other.items()]: the accumulator
    is the receiver's dictionary, or the exception an earlier iteration
    raised.  (When an exception is raised Python leaves the receiver
    partly updated; the model only records the exception.) *)

Definition joinWith_item (key : Z) (value : AbstractValue)
    (acc : result (gmap Z AbstractValue)) : result (gmap Z AbstractValue) :=
  do self <- acc;
  match self !! key with
  | Some sv =>
      do new_val <- AbstractValue.join sv value;
      Ok (<[key := new_val]> self)
  | None =>
      match value with
      | IntervalV i => Ok (<[key := IntervalV i]> self)
      | AddressV a => Ok (<[key := AddressV a]> self)
      end
  end.

Definition joinWith_dict (self other : gmap Z AbstractValue)
    : result (gmap Z AbstractValue) :=
  map_fold joinWith_item (Ok self) other.

Definition joinWith (self other : t AbstractValue)
    : result (t AbstractValue) :=
  do var <- joinWith_dict (_varToAbsVal self) (_varToAbsVal other);
  do addr <- joinWith_dict (_addrToAbsVal self) (_addrToAbsVal other);
  Ok (State var addr).

(** *** meetWith

    One iteration of [for key in self._varToAbsVal]: the accumulator is
    the receiver's dictionary and [keys_to_remove].  [sv] is the
    receiver's value at [key], which no other iteration writes. *)

Definition meetWith_key (other : gmap Z AbstractValue) (key : Z)
    (sv : AbstractValue) (acc : gmap Z AbstractValue * list Z)
    : gmap Z AbstractValue * list Z :=
  let '(self, keys_to_remove) := acc in
  match other !! key with
  | Some ov =>
      match sv, ov with
      | IntervalV si, IntervalV oi =>
          let new_interval := IntervalValue.meet si oi in
          (<[key := IntervalV new_interval]> self,
           if IntervalValue.is_bottom new_interval
           then keys_to_remove ++ [key] else keys_to_remove)
      | AddressV sa, AddressV oa =>
          let new_address := AddressValue.meet sa oa in
          (<[key := AddressV new_address]> self,
           if bool_decide (AddressValue.get_addrs new_address = ∅)
           then keys_to_remove ++ [key] else keys_to_remove)
      | _, _ => (self, keys_to_remove)
      end
  | None => (self, keys_to_remove ++ [key])
  end.

Definition meetWith_dict (self other : gmap Z AbstractValue)
    : gmap Z AbstractValue :=
  let '(self', keys_to_remove) :=
    map_fold (meetWith_key other) (self, []) self in
  foldl (λ d key, delete key d) self' keys_to_remove.

Definition meetWith (self other : t AbstractValue) : t AbstractValue :=
  State (meetWith_dict (_varToAbsVal self) (_varToAbsVal other))
        (meetWith_dict (_addrToAbsVal self) (_addrToAbsVal other)).

(** *** store

    [store] never looks into [val]: it is the same function in both
    layers. *)

Definition store {V} (self : t V) (addr : Z) (val : V) : result (t V) :=
  if negb (AddressValue.isVirtualMemAddress addr) then Raise AssertionError
  else if AddressValue.getInternalID addr =? 0 then Ok self
  else
    let obj_id := AddressValue.getInternalID addr in
    Ok (State (_varToAbsVal self) (<[obj_id := val]> (_addrToAbsVal self))).

(** *** sliceState, storeValue

    Like [store], these move entries without looking into them. *)

Definition sliceState {V} (self : t V) (ids : gset Z) : t V :=
  State
    (set_fold
       (λ id inv,
          match _varToAbsVal self !! id with
          | Some v => <[id := v]> inv
          | None => inv
          end) ∅ ids)
    ∅.

Definition storeValue {V} (self : t V) (var_id : Z) (val : V) : t V :=
  State (<[var_id := val]> (_varToAbsVal self)) (_addrToAbsVal self).

(** *** inVarToAddrsTable *)

Definition inVarToAddrsTable (self : t AbstractValue) (id : Z) : bool :=
  match _varToAbsVal self !! id with
  | Some v => AbstractValue.isAddr v
  | None => false
  end.

(** *** getGepObjAddrs

    The last case of the [match] is behind the test of
    [inVarToAddrsTable] and is not reached. *)

Definition getGepObjAddrs (self : t AbstractValue) (pointer : Z)
    (offset : IntervalValue) : AddressValue :=
  if negb (inVarToAddrsTable self pointer) then Address ∅
  else
    match _varToAbsVal self !! pointer with
    | Some (AddressV base_addrs) =>
        match IntervalValue._lb offset, IntervalValue._ub offset with
        | Some lb, Some ub =>
            if lb =? ub then
              let const_offset := lb in
              Address
                (set_fold
                   (λ addr result_addrs, result_addrs ∪ {[ addr + const_offset ]})
                   ∅ (AddressValue.get_addrs base_addrs))
            else Address (AddressValue.get_addrs base_addrs)
        | _, _ => Address (AddressValue.get_addrs base_addrs)
        end
    | _ => Address ∅
    end.

End AbstractState.

Abbreviation AbstractState := AbstractState.t.
Abbreviation State := AbstractState.State.

(** ** The object store

    [AbstractState.bottom], [top], [__getitem__] and [load] depend on which
    object a dictionary entry refers to.  Here every instance lives in a
    store at a reference; an [AbstractValue] instance holds references to
    its [IntervalValue] or [AddressValue], and the dictionaries of a state
    hold references to [AbstractValue] instances.  A constructor call
    allocates at the first unused reference.

    An operation returns [None] when it follows a reference that is
    unused, or that holds an instance of another class than the one the
    method is defined on, or an [_interval] field that was never set; the
    instances made by [createInterval] and [createAddress] never lead
    there. *)

Module Obj.

Abbreviation ref := nat.

Inductive object :=
| IntervalObj (_lb _ub : option Z)
| AddressObj (_addrs : gset Z)
| ValueObj (_type : option AbstractValueType) (_interval _address : option ref).

Abbreviation heap := (list object).

Definition alloc (h : heap) (o : object) : ref * heap :=
  (length h, h ++ [o]).

(** [AbstractValue.createInterval(lb, ub)]: [AbstractValue()], then the
    two assignments to [_type] and [_interval]. *)
Definition createInterval (lb ub : option Z) (h : heap) : ref * heap :=
  let '(val, h) := alloc h (ValueObj None None None) in
  let '(i, h) := alloc h (IntervalObj lb ub) in
  (val, <[val := ValueObj (Some INTERVAL) (Some i) None]> h).

Definition createAddress (addresses : gset Z) (h : heap) : ref * heap :=
  let '(val, h) := alloc h (ValueObj None None None) in
  let '(a, h) := alloc h (AddressObj addresses) in
  (val, <[val := ValueObj (Some ADDRESS) None (Some a)]> h).

Definition set_to_top (self : ref) (h : heap) : option heap :=
  match h !! self with
  | Some (IntervalObj _ _) => Some (<[self := IntervalObj None None]> h)
  | _ => None
  end.

Definition set_to_bottom (self : ref) (h : heap) : option heap :=
  match h !! self with
  | Some (IntervalObj _ _) => Some (<[self := IntervalObj (Some 1) (Some 0)]> h)
  | _ => None
  end.

(** The body of the loop of [bottom] and [top]:
    [if d[item_key].isInterval(): d[item_key].getInterval().set_to_..()],
    where [r] is [d[item_key]] and [set_to] the setter. *)
Definition force_key (set_to : ref → heap → option heap)
    (item_key : Z) (r : ref) (acc : option heap) : option heap :=
  h ← acc;
  o ← h !! r;
  match o with
  | ValueObj (Some INTERVAL) (Some i) _ => set_to i h
  | ValueObj (Some INTERVAL) None _ => None
  | ValueObj _ _ _ => Some h
  | _ => None
  end.

(** [inv] is built from [.copy()] of both dictionaries: new dictionaries
    holding the same references. *)
Definition bottom (self : AbstractState ref) (h : heap)
    : option (AbstractState ref * heap) :=
  let inv := State (AbstractState._varToAbsVal self)
                   (AbstractState._addrToAbsVal self) in
  h' ← map_fold (force_key set_to_bottom) (Some h)
                (AbstractState._varToAbsVal inv);
  Some (inv, h').

Definition top (self : AbstractState ref) (h : heap)
    : option (AbstractState ref * heap) :=
  let inv := State (AbstractState._varToAbsVal self)
                   (AbstractState._addrToAbsVal self) in
  h' ← map_fold (force_key set_to_top) (Some h)
                (AbstractState._varToAbsVal inv);
  Some (inv, h').

(** [self._varToAbsVal.get(var_id, AbstractValue.createInterval())]:
    the default is an argument, so it is constructed before [get] looks
    the key up. *)
Definition getitem (self : AbstractState ref) (var_id : Z) (h : heap)
    : ref * heap :=
  let '(dflt, h) := createInterval None None h in
  (default dflt (AbstractState._varToAbsVal self !! var_id), h).

Definition load (self : AbstractState ref) (addr : Z) (h : heap)
    : result ref * heap :=
  if negb (AddressValue.isVirtualMemAddress addr)
  then (Raise AssertionError, h)
  else
    let obj_id := AddressValue.getInternalID addr in
    match AbstractState._addrToAbsVal self !! obj_id with
    | Some r => (Ok r, h)
    | None =>
        let '(r, h) := createInterval None None h in
        (Ok r, h)
    end.

(** [loadValue(var_id)] is [self[var_id]]. *)
Definition loadValue (self : AbstractState ref) (var_id : Z) (h : heap)
    : ref * heap :=
  getitem self var_id h.

(** *** Reading the store

    The abstract value an [AbstractValue] instance stands for, and the
    value a state holds for a key. *)

Definition read_value (h : heap) (r : ref) : option AbstractValue :=
  o ← h !! r;
  match o with
  | ValueObj (Some INTERVAL) (Some i) _ =>
      match h !! i with
      | Some (IntervalObj lb ub) => Some (IntervalV (Interval lb ub))
      | _ => None
      end
  | ValueObj (Some ADDRESS) _ (Some a) =>
      match h !! a with
      | Some (AddressObj addrs) => Some (AddressV (Address addrs))
      | _ => None
      end
  | _ => None
  end.

Definition read_var (h : heap) (s : AbstractState ref) (key : Z)
    : option AbstractValue :=
  r ← AbstractState._varToAbsVal s !! key; read_value h r.

Definition read_addr (h : heap) (s : AbstractState ref) (key : Z)
    : option AbstractValue :=
  r ← AbstractState._addrToAbsVal s !! key; read_value h r.

(** Every entry of the variable store refers to an [AbstractValue]
    instance whose interval or address set is in the store. *)
Definition var_readable (h : heap) (s : AbstractState ref) : Prop :=
  ∀ key r, AbstractState._varToAbsVal s !! key = Some r →
           is_Some (read_value h r).

End Obj.

(** ** Repeated widening

    What a fixpoint driver does with [IntervalValue.widening]: it keeps an
    accumulated interval and widens it with each interval of a sequence.
    [widening_run a xs] is the accumulated interval at the end;
    [widening_changes a xs] counts the applications whose result is not
    [equals] to the interval they were applied to, and
    [lb_changes]/[ub_changes] those that changed the one bound. *)

Fixpoint widening_run (a : IntervalValue) (xs : list IntervalValue)
    : IntervalValue :=
  match xs with
  | [] => a
  | x :: xs' => widening_run (IntervalValue.widening a x) xs'
  end.

Fixpoint widening_changes (a : IntervalValue) (xs : list IntervalValue) : nat :=
  match xs with
  | [] => 0%nat
  | x :: xs' =>
      let a' := IntervalValue.widening a x in
      ((if IntervalValue.equals a a' then 0 else 1)
       + widening_changes a' xs')%nat
  end.

Fixpoint lb_changes (a : IntervalValue) (xs : list IntervalValue) : nat :=
  match xs with
  | [] => 0%nat
  | x :: xs' =>
      let a' := IntervalValue.widening a x in
      ((if IntervalValue.bound_eqb (IntervalValue._lb a) (IntervalValue._lb a')
        then 0 else 1) + lb_changes a' xs')%nat
  end.

Fixpoint ub_changes (a : IntervalValue) (xs : list IntervalValue) : nat :=
  match xs with
  | [] => 0%nat
  | x :: xs' =>
      let a' := IntervalValue.widening a x in
      ((if IntervalValue.bound_eqb (IntervalValue._ub a) (IntervalValue._ub a')
        then 0 else 1) + ub_changes a' xs')%nat
  end.

(** The number of finite bounds of an interval: what repeated widening
    uses up. *)
Definition is_finite (b : option Z) : nat :=
  match b with Some _ => 1%nat | None => 0%nat end.

Definition finite_bounds (a : IntervalValue) : nat :=
  (is_finite (IntervalValue._lb a) + is_finite (IntervalValue._ub a))%nat.

(** ** Worked states *)

Definition iv (lb ub : Z) : AbstractValue :=
  AbstractValue.createInterval (Some lb) (Some ub).

(** [state1 = {1:[1,5]}] and [state2 = {1:[3,10], 2:[15,20]}], both in the
    variable store. *)
Definition state1 : AbstractState AbstractValue :=
  State {[ 1 := iv 1 5 ]} ∅.

Definition state2 : AbstractState AbstractValue :=
  State (<[ 1 := iv 3 10 ]> {[ 2 := iv 15 20 ]}) ∅.

(** ** The merges, key by key

    The entry each merge of [AbstractState] leaves for a key, as a function
    of the entries the receiver and [other] hold for that key ([None]: the
    key is absent).  The loops above are proved to compute these, in
    [widening_dict_lookup], [narrowing_dict_lookup], [meetWith_dict_lookup]
    and [joinWith_dict_spec]. *)

Module Entry.

Definition widening (s o : option AbstractValue) : option AbstractValue :=
  match s, o with
  | Some (IntervalV si), Some (IntervalV oi) =>
      Some (IntervalV (IntervalValue.widening si oi))
  | Some (AddressV sa), Some (AddressV oa) =>
      Some (AddressV (AddressValue.join sa oa))
  | Some _, Some _ => None
  | Some sv, None => Some sv
  | None, o => o
  end.

Definition narrowing (s o : option AbstractValue) : option AbstractValue :=
  match s, o with
  | Some (IntervalV si), Some (IntervalV oi) =>
      Some (IntervalV (IntervalValue.narrowing si oi))
  | Some (AddressV sa), Some (AddressV oa) =>
      Some (AddressV (AddressValue.meet sa oa))
  | Some _, Some _ => None
  | Some sv, None => Some sv
  | None, o => o
  end.

(** [meetWith]: the entry written by the loop, and whether the key is
    put on [keys_to_remove]. *)
Definition meet_written (s o : option AbstractValue) : option AbstractValue :=
  match s, o with
  | Some (IntervalV si), Some (IntervalV oi) =>
      Some (IntervalV (IntervalValue.meet si oi))
  | Some (AddressV sa), Some (AddressV oa) =>
      Some (AddressV (AddressValue.meet sa oa))
  | s, _ => s
  end.

Definition meet_removed (s o : option AbstractValue) : bool :=
  match s, o with
  | Some (IntervalV si), Some (IntervalV oi) =>
      IntervalValue.is_bottom (IntervalValue.meet si oi)
  | Some (AddressV sa), Some (AddressV oa) =>
      bool_decide (AddressValue.get_addrs (AddressValue.meet sa oa) = ∅)
  | Some _, Some _ => false
  | Some _, None => true
  | None, _ => false
  end.

Definition meet (s o : option AbstractValue) : option AbstractValue :=
  if meet_removed s o then None else meet_written s o.

(** [joinWith], on two entries of the same tag (or one absent). *)
Definition join (s o : option AbstractValue) : option AbstractValue :=
  match s, o with
  | Some sv, Some ov =>
      match AbstractValue.join sv ov with
      | Ok v => Some v
      | Raise _ => None
      end
  | Some sv, None => Some sv
  | None, o => o
  end.

End Entry.

(** ** A state in the object store

    [s = AbstractState({1: createInterval(1,5), 2: createAddress({3,4})},
                       {7: createInterval(2,3)})], built by the three
    constructor calls in an empty store. *)

Definition shared_heap : Obj.heap :=
  let '(_, h) := Obj.createInterval (Some 1) (Some 5) [] in
  let '(_, h) := Obj.createAddress {[ 3; 4 ]} h in
  let '(_, h) := Obj.createInterval (Some 2) (Some 3) h in
  h.

Definition shared_state : AbstractState Obj.ref :=
  let '(v1, h) := Obj.createInterval (Some 1) (Some 5) [] in
  let '(v2, h) := Obj.createAddress {[ 3; 4 ]} h in
  let '(v7, h) := Obj.createInterval (Some 2) (Some 3) h in
  State (<[ 1 := v1 ]> {[ 2 := v2 ]}) {[ 7 := v7 ]}.

(** ** Instances without a tag

    [AbstractValue()] on its own returns an instance whose [_type],
    [_interval] and [_address] are [None]; [__str__] prints it as
    [undefined].  A [RawValue.t] is an instance as any of the three
    constructors leaves it: [Tagged v] for the instances of
    [AbstractValue.t], [Untagged] for that one. *)

Module RawValue.

Inductive t :=
| Tagged (v : AbstractValue)
| Untagged.

Definition _type (self : t) : option AbstractValueType :=
  match self with
  | Tagged v => Some (AbstractValue._type v)
  | Untagged => None
  end.

Definition isInterval (self : t) : bool :=
  match self with
  | Tagged v => AbstractValue.isInterval v
  | Untagged => false
  end.

Definition isAddr (self : t) : bool :=
  match self with
  | Tagged v => AbstractValue.isAddr v
  | Untagged => false
  end.

Definition getInterval (self : t) : result IntervalValue :=
  match self with
  | Tagged v => AbstractValue.getInterval v
  | Untagged => Raise AssertionError
  end.

Definition getAddress (self : t) : result AddressValue :=
  match self with
  | Tagged v => AbstractValue.getAddress v
  | Untagged => Raise AssertionError
  end.

(** Neither test of [join] holds when an operand has no tag: the [else]
    raises. *)
Definition join (self other : t) : result t :=
  match self, other with
  | Tagged a, Tagged b => do v <- AbstractValue.join a b; Ok (Tagged v)
  | _, _ => Raise ValueError
  end.

(** Two instances without a tag pass the test [self._type != other._type]
    and reach [self._address.equals(..)] with [self._address] being
    [None]. *)
Definition equals (self other : t) : result bool :=
  match self, other with
  | Tagged a, Tagged b => Ok (AbstractValue.equals a b)
  | Untagged, Untagged => Raise AttributeError
  | _, _ => Ok false
  end.

End RawValue.

Abbreviation RawValue := RawValue.t.
Abbreviation Tagged := RawValue.Tagged.
Abbreviation Untagged := RawValue.Untagged.

(** ** States that may hold instances without a tag

    The merges and the comparisons of [AbstractState] on dictionaries of
    [RawValue]s.  The loops are those of [Module AbstractState]; what is
    new is what each does with [Untagged]. *)

Module RawState.

(** *** widening *)

Definition widening_key (self other : gmap Z RawValue) (key : Z)
    (result : gmap Z RawValue) : gmap Z RawValue :=
  match self !! key, other !! key with
  | Some sv, Some ov =>
      match sv, ov with
      | Tagged (IntervalV si), Tagged (IntervalV oi) =>
          <[key := Tagged (IntervalV (IntervalValue.widening si oi))]> result
      | Tagged (AddressV sa), Tagged (AddressV oa) =>
          <[key := Tagged (AddressV (AddressValue.join sa oa))]> result
      | _, _ => result
      end
  | Some sv, None => <[key := sv]> result
  | None, Some ov => <[key := ov]> result
  | None, None => result
  end.

Definition widening_dict (self other : gmap Z RawValue) : gmap Z RawValue :=
  let all_keys : gset Z := dom self ∪ dom other in
  set_fold (widening_key self other) ∅ all_keys.

Definition widening (self other : AbstractState RawValue)
    : AbstractState RawValue :=
  State (widening_dict (AbstractState._varToAbsVal self)
                       (AbstractState._varToAbsVal other))
        (widening_dict (AbstractState._addrToAbsVal self)
                       (AbstractState._addrToAbsVal other)).

(** *** joinWith

    For a key the receiver does not hold, the copy goes through
    [value.getInterval()] or, when [value.isInterval()] is false,
    [value.getAddress()], whose [assert] fails on an instance without a
    tag. *)

Definition joinWith_item (key : Z) (value : RawValue)
    (acc : result (gmap Z RawValue)) : result (gmap Z RawValue) :=
  do self <- acc;
  match self !! key with
  | Some sv =>
      do new_val <- RawValue.join sv value;
      Ok (<[key := new_val]> self)
  | None =>
      if RawValue.isInterval value then
        do i <- RawValue.getInterval value;
        Ok (<[key := Tagged (IntervalV i)]> self)
      else
        do a <- RawValue.getAddress value;
        Ok (<[key := Tagged (AddressV a)]> self)
  end.

Definition joinWith_dict (self other : gmap Z RawValue)
    : result (gmap Z RawValue) :=
  map_fold joinWith_item (Ok self) other.

Definition joinWith (self other : AbstractState RawValue)
    : result (AbstractState RawValue) :=
  do var <- joinWith_dict (AbstractState._varToAbsVal self)
                          (AbstractState._varToAbsVal other);
  do addr <- joinWith_dict (AbstractState._addrToAbsVal self)
                           (AbstractState._addrToAbsVal other);
  Ok (State var addr).

(** *** meetWith *)

Definition meetWith_key (other : gmap Z RawValue) (key : Z)
    (sv : RawValue) (acc : gmap Z RawValue * list Z)
    : gmap Z RawValue * list Z :=
  let '(self, keys_to_remove) := acc in
  match other !! key with
  | Some ov =>
      match sv, ov with
      | Tagged (IntervalV si), Tagged (IntervalV oi) =>
          let new_interval := IntervalValue.meet si oi in
          (<[key := Tagged (IntervalV new_interval)]> self,
           if IntervalValue.is_bottom new_interval
           then keys_to_remove ++ [key] else keys_to_remove)
      | Tagged (AddressV sa), Tagged (AddressV oa) =>
          let new_address := AddressValue.meet sa oa in
          (<[key := Tagged (AddressV new_address)]> self,
           if bool_decide (AddressValue.get_addrs new_address = ∅)
           then keys_to_remove ++ [key] else keys_to_remove)
      | _, _ => (self, keys_to_remove)
      end
  | None => (self, keys_to_remove ++ [key])
  end.

Definition meetWith_dict (self other : gmap Z RawValue) : gmap Z RawValue :=
  let '(self', keys_to_remove) :=
    map_fold (meetWith_key other) (self, []) self in
  foldl (λ d key, delete key d) self' keys_to_remove.

Definition meetWith (self other : AbstractState RawValue)
    : AbstractState RawValue :=
  State (meetWith_dict (AbstractState._varToAbsVal self)
                       (AbstractState._varToAbsVal other))
        (meetWith_dict (AbstractState._addrToAbsVal self)
                       (AbstractState._addrToAbsVal other)).

(** *** equals

    The loop of [_eqVarToValMap] returns [False] from inside: once an
    iteration has returned, the accumulator is [Ok false] and no later
    [value.equals] is evaluated.  An exception of [value.equals] ends the
    loop as well.  (The fold visits the entries in the order of the keys,
    Python in the order of insertion; the properties below hold for every
    order.) *)

Definition _eqVarToValMap (lhs rhs : gmap Z RawValue) : result bool :=
  if negb (size lhs =? size rhs)%nat then Ok false
  else
    map_fold
      (λ key value acc,
         do b <- acc;
         if b : bool then
           match rhs !! key with
           | None => Ok false
           | Some rv => RawValue.equals value rv
           end
         else Ok false)
      (Ok true) lhs.

Definition equals (self other : AbstractState RawValue) : result bool :=
  do b <- _eqVarToValMap (AbstractState._varToAbsVal self)
                         (AbstractState._varToAbsVal other);
  if b : bool then
    _eqVarToValMap (AbstractState._addrToAbsVal self)
                   (AbstractState._addrToAbsVal other)
  else Ok false.

(** *** __ge__, __lt__

    The test [__ge__] makes on the receiver's [self_val] and [other]'s
    [value] for one key: with an instance without a tag on either side
    both [isInterval] tests and both [isAddr] tests fail and the [else]
    returns [False].  Nothing raises here, so the loop is a
    conjunction. *)

Definition ge_value (self_val value : RawValue) : bool :=
  match value, self_val with
  | Tagged (IntervalV oi), Tagged (IntervalV si) => IntervalValue.contain si oi
  | Tagged (AddressV oa), Tagged (AddressV sa) =>
      bool_decide (AddressValue.get_addrs oa ⊆ AddressValue.get_addrs sa)
  | _, _ => false
  end.

Definition ge_item (self : gmap Z RawValue) (key : Z) (value : RawValue)
    (acc : bool) : bool :=
  acc && match self !! key with
         | None => false
         | Some self_val => ge_value self_val value
         end.

Definition ge_dict (self other : gmap Z RawValue) : bool :=
  map_fold (ge_item self) true other.

Definition ge (self other : AbstractState RawValue) : bool :=
  ge_dict (AbstractState._varToAbsVal self) (AbstractState._varToAbsVal other)
  && ge_dict (AbstractState._addrToAbsVal self)
             (AbstractState._addrToAbsVal other).

Definition lt (self other : AbstractState RawValue) : bool :=
  negb (ge self other).

(** *** Conditions on dictionaries

    [tagged d]: every instance [d] holds has a tag.  [no_bottom d]: no
    interval [d] holds is bottom.  [same_tags d1 d2]: a key of both
    dictionaries holds instances of the same [_type] in both.
    [joinable self other]: what [joinWith] needs of the two dictionaries
    to return. *)

Definition tagged (d : gmap Z RawValue) : Prop :=
  ∀ key, d !! key ≠ Some Untagged.

Definition no_bottom (d : gmap Z RawValue) : Prop :=
  ∀ key i, d !! key = Some (Tagged (IntervalV i)) →
           IntervalValue.is_bottom i = false.


Definition joinable (self other : gmap Z RawValue) : Prop :=
  ∀ key ov, other !! key = Some ov →
    ov ≠ Untagged ∧
    ∀ sv, self !! key = Some sv → RawValue._type sv = RawValue._type ov.

(** *** The merges, key by key

    As [Module Entry], for instances that may have no tag. *)

Definition entry_widening (s o : option RawValue) : option RawValue :=
  match s, o with
  | Some (Tagged (IntervalV si)), Some (Tagged (IntervalV oi)) =>
      Some (Tagged (IntervalV (IntervalValue.widening si oi)))
  | Some (Tagged (AddressV sa)), Some (Tagged (AddressV oa)) =>
      Some (Tagged (AddressV (AddressValue.join sa oa)))
  | Some _, Some _ => None
  | Some sv, None => Some sv
  | None, o => o
  end.

Definition entry_meet_written (s o : option RawValue) : option RawValue :=
  match s, o with
  | Some (Tagged (IntervalV si)), Some (Tagged (IntervalV oi)) =>
      Some (Tagged (IntervalV (IntervalValue.meet si oi)))
  | Some (Tagged (AddressV sa)), Some (Tagged (AddressV oa)) =>
      Some (Tagged (AddressV (AddressValue.meet sa oa)))
  | s, _ => s
  end.

Definition entry_meet_removed (s o : option RawValue) : bool :=
  match s, o with
  | Some (Tagged (IntervalV si)), Some (Tagged (IntervalV oi)) =>
      IntervalValue.is_bottom (IntervalValue.meet si oi)
  | Some (Tagged (AddressV sa)), Some (Tagged (AddressV oa)) =>
      bool_decide (AddressValue.get_addrs (AddressValue.meet sa oa) = ∅)
  | Some _, Some _ => false
  | Some _, None => true
  | None, _ => false
  end.

Definition entry_meet (s o : option RawValue) : option RawValue :=
  if entry_meet_removed s o then None else entry_meet_written s o.

Definition entry_join (s o : option RawValue) : option RawValue :=
  match s, o with
  | Some sv, Some ov =>
      match RawValue.join sv ov with
      | Ok v => Some v
      | Raise _ => None
      end
  | Some sv, None => Some sv
  | None, o => o
  end.

End RawState.

(** [state1] and [state2] as states of [RawValue]s, and a state that holds
    an instance without a tag. *)
Definition raw_state (s : AbstractState AbstractValue) : AbstractState RawValue :=
  State (Tagged <$> AbstractState._varToAbsVal s)
        (Tagged <$> AbstractState._addrToAbsVal s).

Definition untagged_state : AbstractState RawValue :=
  State {[ 1 := Untagged ]} ∅.

(** * Properties *)

(** ** The interval domain *)

Section interval_facts.
Import IntervalValue.

Lemma is_bottom_bottom : is_bottom bottom = true.
Proof. reflexivity. Qed.

Lemma is_bottom_spec (x : IntervalValue) :
  is_bottom x = true ↔ ∃ l u, _lb x = Some l ∧ _ub x = Some u ∧ u < l.
Proof.
  destruct x as [[l|] [u|]]; unfold is_bottom; simpl.
  - rewrite Z.gtb_ltb, Z.ltb_lt. split.
    + intros H. exists l, u. auto.
    + intros (l' & u' & Hl & Hu & H). congruence.
  - split; [discriminate|]. intros (? & ? & ? & ? & ?). discriminate.
  - split; [discriminate|]. intros (? & ? & ? & ? & ?). discriminate.
  - split; [discriminate|]. intros (? & ? & ? & ? & ?). discriminate.
Qed.

Lemma bound_eqb_eq (a b : option Z) : bound_eqb a b = true ↔ a = b.
Proof.
  destruct a as [a|], b as [b|]; simpl; try (split; congruence).
  rewrite Z.eqb_eq. split; congruence.
Qed.

Lemma bound_eqb_refl (a : option Z) : bound_eqb a a = true.
Proof. by apply bound_eqb_eq. Qed.

Lemma equals_refl (x : IntervalValue) : equals x x = true.
Proof.
  unfold equals. destruct (is_bottom x); simpl; [done|].
  by rewrite !bound_eqb_refl.
Qed.

End interval_facts.

(** C3 (as stated, refuted): the bottom interval does not contain the bottom
    interval: [contain] answers [False] for a bottom receiver before it
    looks at its argument. *)
Lemma contain_bottom_bottom :
  IntervalValue.contain IntervalValue.bottom IntervalValue.bottom = false.
Proof. reflexivity. Qed.

(** C3 (amended): a bottom receiver contains nothing, bottom included;
    every receiver that is not bottom contains every bottom interval; and
    when neither is bottom, [contain] holds exactly when each side of the
    receiver dominates the argument's: an unbounded side dominates
    anything, a finite side dominates no unbounded one, and two finite
    sides are compared as numbers ([self.lb <= other.lb],
    [self.ub >= other.ub]). *)
Theorem contain_rules (x y : IntervalValue) :
  (IntervalValue.is_bottom x = true → IntervalValue.contain x y = false) ∧
  (IntervalValue.is_bottom x = false → IntervalValue.is_bottom y = true →
   IntervalValue.contain x y = true) ∧
  (IntervalValue.is_bottom x = false → IntervalValue.is_bottom y = false →
   (IntervalValue.contain x y = true ↔
    match IntervalValue._lb x, IntervalValue._lb y with
    | None, _ => True
    | Some _, None => False
    | Some xl, Some yl => xl ≤ yl
    end ∧
    match IntervalValue._ub x, IntervalValue._ub y with
    | None, _ => True
    | Some _, None => False
    | Some xu, Some yu => xu >= yu
    end)).
Proof.
  unfold IntervalValue.contain.
  split; [|split].
  - by intros ->.
  - by intros -> ->.
  - intros -> ->. rewrite andb_true_iff.
    destruct x as [[xl|] [xu|]], y as [[yl|] [yu|]]; simpl;
      rewrite ?Z.leb_le, ?Z.geb_le; intuition (try lia; try discriminate).
Qed.

Lemma contain_rules_witness :
  IntervalValue.contain IntervalValue.bottom (Interval (Some 1) (Some 5)) = false ∧
  IntervalValue.contain (Interval (Some 1) (Some 5)) IntervalValue.bottom = true ∧
  IntervalValue.contain (Interval None (Some 10)) (Interval (Some 1) (Some 5)) = true.
Proof.
  split; [|split].
  - apply (proj1 (contain_rules IntervalValue.bottom (Interval (Some 1) (Some 5)))).
    reflexivity.
  - apply (proj1 (proj2 (contain_rules (Interval (Some 1) (Some 5)) IntervalValue.bottom)));
      reflexivity.
  - apply (proj2 (proj2 (contain_rules (Interval None (Some 10)) (Interval (Some 1) (Some 5)))));
      [reflexivity | reflexivity |].
    simpl. split; [exact I | lia].
Defined.

(** ** Widening *)

Section widening_facts.
Import IntervalValue.

Lemma widening_bottom_l (a b : IntervalValue) :
  is_bottom a = true → widening a b = b.
Proof. unfold widening. intros ->. by destruct b. Qed.

Lemma widening_bottom_r (a b : IntervalValue) :
  is_bottom a = false → is_bottom b = true → widening a b = a.
Proof. unfold widening. intros -> ->. by destruct a. Qed.

Lemma widening_not_bottom (a b : IntervalValue) :
  is_bottom a = false → is_bottom (widening a b) = false.
Proof.
  intros Ha. destruct (is_bottom b) eqn:Hb.
  - by rewrite widening_bottom_r.
  - unfold widening. rewrite Ha, Hb.
    destruct a as [[al|] [au|]], b as [[bl|] [bu|]]; simpl in *; try done;
      repeat case_match; simpl; done.
Qed.

(** One application to an interval that is not bottom either returns an
    interval [equals] to it or uses up a finite bound. *)
Lemma widening_step (a b : IntervalValue) :
  is_bottom a = false →
  ((if equals a (widening a b) then 0 else 1)
   + finite_bounds (widening a b) ≤ finite_bounds a)%nat.
Proof.
  intros Ha. destruct (is_bottom b) eqn:Hb.
  - rewrite widening_bottom_r by done. rewrite equals_refl. simpl. lia.
  - pose proof (widening_not_bottom a b Ha) as Hw.
    unfold equals. rewrite Ha, Hw. simpl.
    unfold widening in *. rewrite Ha, Hb in *.
    destruct a as [[al|] [au|]], b as [[bl|] [bu|]];
      unfold finite_bounds; simpl in *;
      repeat case_match; simpl in *;
      simplify_eq/=; rewrite ?Z.eqb_refl in *; first [done | lia].
Qed.

Lemma widening_lb_step (a b : IntervalValue) :
  is_bottom a = false →
  ((if bound_eqb (_lb a) (_lb (widening a b)) then 0 else 1)
   + is_finite (_lb (widening a b)) ≤ is_finite (_lb a))%nat.
Proof.
  intros Ha. destruct (is_bottom b) eqn:Hb.
  - rewrite widening_bottom_r by done. rewrite bound_eqb_refl. simpl. lia.
  - unfold widening. rewrite Ha, Hb.
    destruct a as [[al|] [au|]], b as [[bl|] [bu|]]; simpl;
      repeat case_match; simpl in *;
      simplify_eq/=; rewrite ?Z.eqb_refl in *; first [done | lia].
Qed.

Lemma widening_ub_step (a b : IntervalValue) :
  is_bottom a = false →
  ((if bound_eqb (_ub a) (_ub (widening a b)) then 0 else 1)
   + is_finite (_ub (widening a b)) ≤ is_finite (_ub a))%nat.
Proof.
  intros Ha. destruct (is_bottom b) eqn:Hb.
  - rewrite widening_bottom_r by done. rewrite bound_eqb_refl. simpl. lia.
  - unfold widening. rewrite Ha, Hb.
    destruct a as [[al|] [au|]], b as [[bl|] [bu|]]; simpl;
      repeat case_match; simpl in *;
      simplify_eq/=; rewrite ?Z.eqb_refl in *; first [done | lia].
Qed.

Lemma widening_changes_bound (xs : list IntervalValue) (a : IntervalValue) :
  is_bottom a = false →
  (widening_changes a xs ≤ finite_bounds a)%nat.
Proof.
  revert a. induction xs as [|x xs IH]; intros a Ha; simpl; [lia|].
  pose proof (widening_step a x Ha).
  pose proof (IH _ (widening_not_bottom a x Ha)). lia.
Qed.

Lemma lb_changes_bound (xs : list IntervalValue) (a : IntervalValue) :
  is_bottom a = false →
  (lb_changes a xs ≤ is_finite (_lb a))%nat.
Proof.
  revert a. induction xs as [|x xs IH]; intros a Ha; simpl; [lia|].
  pose proof (widening_lb_step a x Ha).
  pose proof (IH _ (widening_not_bottom a x Ha)). lia.
Qed.

Lemma ub_changes_bound (xs : list IntervalValue) (a : IntervalValue) :
  is_bottom a = false →
  (ub_changes a xs ≤ is_finite (_ub a))%nat.
Proof.
  revert a. induction xs as [|x xs IH]; intros a Ha; simpl; [lia|].
  pose proof (widening_ub_step a x Ha).
  pose proof (IH _ (widening_not_bottom a x Ha)). lia.
Qed.

Lemma is_finite_le_1 (b : option Z) : (is_finite b ≤ 1)%nat.
Proof. destruct b; simpl; lia. Qed.

Lemma finite_bounds_le_2 (a : IntervalValue) : (finite_bounds a ≤ 2)%nat.
Proof.
  unfold finite_bounds.
  pose proof (is_finite_le_1 (_lb a)). pose proof (is_finite_le_1 (_ub a)).
  lia.
Qed.

End widening_facts.

(** C4 (as stated, refuted): the sequence [[2,5]], [[2,10]], [[1,10]]
    grows, each interval containing the one before it.  Widened in turn
    into the bottom interval, it changes the accumulated interval at all
    three applications (the first absorbs bottom, the second and the third
    each send one bound to infinity), and each bound changes twice. *)
Lemma widening_from_bottom_changes_thrice :
  IntervalValue.contain (Interval (Some 2) (Some 10))
                        (Interval (Some 2) (Some 5)) = true ∧
  IntervalValue.contain (Interval (Some 1) (Some 10))
                        (Interval (Some 2) (Some 10)) = true ∧
  widening_changes IntervalValue.bottom
    [Interval (Some 2) (Some 5); Interval (Some 2) (Some 10);
     Interval (Some 1) (Some 10)] = 3%nat ∧
  lb_changes IntervalValue.bottom
    [Interval (Some 2) (Some 5); Interval (Some 2) (Some 10);
     Interval (Some 1) (Some 10)] = 2%nat ∧
  ub_changes IntervalValue.bottom
    [Interval (Some 2) (Some 5); Interval (Some 2) (Some 10);
     Interval (Some 1) (Some 10)] = 2%nat.
Proof. repeat split; reflexivity. Qed.

(** C4 (amended): widening jumps in one step.  When neither operand is
    bottom, each side of [a.widening(b)] is [a]'s bound when [b]'s bound
    on that side has not gone strictly past it, and unbounded when it has
    (an unbounded bound of [b] is past every finite one); a bottom operand
    is absorbed; widening again with the same interval changes nothing;
    and when an interval that is not bottom is widened with the intervals
    of any sequence in turn, each bound changes at most once, so at most 2
    of the applications return an interval not [equals] to the one they
    were applied to. *)
Theorem widening_single_step_jump :
  (∀ a b : IntervalValue,
     IntervalValue.is_bottom a = false → IntervalValue.is_bottom b = false →
     match IntervalValue._lb a, IntervalValue._lb b with
     | None, _ => IntervalValue._lb (IntervalValue.widening a b) = None
     | Some al, None => IntervalValue._lb (IntervalValue.widening a b) = None
     | Some al, Some bl =>
         (bl < al → IntervalValue._lb (IntervalValue.widening a b) = None) ∧
         (al ≤ bl → IntervalValue._lb (IntervalValue.widening a b) = Some al)
     end ∧
     match IntervalValue._ub a, IntervalValue._ub b with
     | None, _ => IntervalValue._ub (IntervalValue.widening a b) = None
     | Some au, None => IntervalValue._ub (IntervalValue.widening a b) = None
     | Some au, Some bu =>
         (au < bu → IntervalValue._ub (IntervalValue.widening a b) = None) ∧
         (bu ≤ au → IntervalValue._ub (IntervalValue.widening a b) = Some au)
     end) ∧
  (∀ a b : IntervalValue,
     IntervalValue.is_bottom a = true → IntervalValue.widening a b = b) ∧
  (∀ a b : IntervalValue,
     IntervalValue.is_bottom a = false → IntervalValue.is_bottom b = true →
     IntervalValue.widening a b = a) ∧
  (∀ a b : IntervalValue,
     IntervalValue.widening (IntervalValue.widening a b) b
     = IntervalValue.widening a b) ∧
  (∀ (a : IntervalValue) (xs : list IntervalValue),
     IntervalValue.is_bottom a = false →
     (lb_changes a xs ≤ 1)%nat ∧ (ub_changes a xs ≤ 1)%nat ∧
     (widening_changes a xs ≤ 2)%nat).
Proof.
  split; [|split; [|split; [|split]]].
  - intros a b Ha Hb. unfold IntervalValue.widening. rewrite Ha, Hb.
    destruct a as [[al|] [au|]], b as [[bl|] [bu|]]; simpl;
      repeat split; intros; rewrite ?Z.gtb_ltb;
      try (destruct (Z.ltb_spec bl al)); try (destruct (Z.ltb_spec au bu));
      first [done | lia].
  - apply widening_bottom_l.
  - apply widening_bottom_r.
  - intros a b. destruct (IntervalValue.is_bottom a) eqn:Ha.
    + rewrite (widening_bottom_l a b Ha).
      destruct (IntervalValue.is_bottom b) eqn:Hb.
      * by apply widening_bottom_l.
      * unfold IntervalValue.widening. rewrite Hb.
        destruct b as [[bl|] [bu|]]; simpl;
          rewrite ?Z.ltb_irrefl, ?Z.gtb_ltb, ?Z.ltb_irrefl; done.
    + destruct (IntervalValue.is_bottom b) eqn:Hb.
      * rewrite (widening_bottom_r a b Ha Hb). by apply widening_bottom_r.
      * pose proof (widening_not_bottom a b Ha) as Hw.
        unfold IntervalValue.widening at 1. rewrite Hw, Hb.
        unfold IntervalValue.widening. rewrite Ha, Hb.
        destruct a as [[al|] [au|]], b as [[bl|] [bu|]]; simpl;
          repeat (case_match; simplify_eq/=); done.
  - intros a xs Ha.
    pose proof (lb_changes_bound xs a Ha).
    pose proof (ub_changes_bound xs a Ha).
    pose proof (widening_changes_bound xs a Ha).
    pose proof (is_finite_le_1 (IntervalValue._lb a)).
    pose proof (is_finite_le_1 (IntervalValue._ub a)).
    pose proof (finite_bounds_le_2 a). lia.
Qed.

(** [[1,5]] widened with [[0,10]], then [[-3,12]], then [[-7,40]]: the first
    application already gives top, and the two later ones change nothing. *)
Lemma widening_single_step_jump_witness :
  IntervalValue.widening (Interval (Some 1) (Some 5)) IntervalValue.bottom
  = Interval (Some 1) (Some 5) ∧
  (widening_changes (Interval (Some 1) (Some 5))%Z
     [Interval (Some 0) (Some 10); Interval (Some (-3)) (Some 12);
      Interval (Some (-7)) (Some 40)]%Z ≤ 2)%nat.
Proof.
  destruct widening_single_step_jump as (_ & _ & Hr & _ & Hrun).
  split.
  - apply Hr; reflexivity.
  - apply (Hrun (Interval (Some 1) (Some 5))). reflexivity.
Defined.

(** ** Narrowing *)

(** C8: narrowing is conservative.  When neither operand is bottom, each
    side of [a.narrowing(b)] is [b]'s bound where [a]'s side is unbounded
    (so a finite bound of [b] replaces it) and [a]'s own bound where [a]'s
    side is finite, whatever [b]'s bound is; when either operand is bottom
    the result is bottom; and [top.narrowing(Interval(1,5))] [equals]
    [Interval(1,5)]. *)
Theorem narrowing_conservative :
  (∀ a b : IntervalValue,
     IntervalValue.is_bottom a = false → IntervalValue.is_bottom b = false →
     (IntervalValue._lb a = None →
      IntervalValue._lb (IntervalValue.narrowing a b) = IntervalValue._lb b) ∧
     (∀ al, IntervalValue._lb a = Some al →
      IntervalValue._lb (IntervalValue.narrowing a b) = Some al) ∧
     (IntervalValue._ub a = None →
      IntervalValue._ub (IntervalValue.narrowing a b) = IntervalValue._ub b) ∧
     (∀ au, IntervalValue._ub a = Some au →
      IntervalValue._ub (IntervalValue.narrowing a b) = Some au)) ∧
  (∀ a b : IntervalValue,
     IntervalValue.is_bottom a = true ∨ IntervalValue.is_bottom b = true →
     IntervalValue.narrowing a b = IntervalValue.bottom ∧
     IntervalValue.is_bottom (IntervalValue.narrowing a b) = true) ∧
  IntervalValue.equals
    (IntervalValue.narrowing IntervalValue.top (Interval (Some 1) (Some 5)))
    (Interval (Some 1) (Some 5)) = true.
Proof.
  split; [|split].
  - intros a b Ha Hb. unfold IntervalValue.narrowing. rewrite Ha, Hb.
    destruct a as [[al|] [au|]], b as [[bl|] [bu|]]; simpl;
      repeat split; intros; congruence.
  - intros a b H. unfold IntervalValue.narrowing.
    destruct H as [-> | ->]; rewrite ?orb_true_r; done.
  - reflexivity.
Qed.

(** [[-∞,7]] narrowed with the strictly tighter [[2,3]]: the unbounded lower
    side takes 2, the finite upper side keeps 7. *)
Lemma narrowing_conservative_witness :
  IntervalValue._lb
    (IntervalValue.narrowing (Interval None (Some 7)) (Interval (Some 2) (Some 3)))
  = Some 2 ∧
  IntervalValue._ub
    (IntervalValue.narrowing (Interval None (Some 7)) (Interval (Some 2) (Some 3)))
  = Some 7 ∧
  IntervalValue.narrowing IntervalValue.bottom (Interval (Some 1) (Some 5))
  = IntervalValue.bottom.
Proof.
  destruct narrowing_conservative as (Hside & Hbot & _).
  destruct (Hside (Interval None (Some 7)) (Interval (Some 2) (Some 3))
              eq_refl eq_refl) as (Hl & _ & _ & Hu).
  split; [|split].
  - apply Hl. reflexivity.
  - apply Hu. reflexivity.
  - apply Hbot. left. reflexivity.
Defined.

(** ** Virtual addresses *)

Section address_facts.
Import AddressValue.

Lemma _ADDR_MASK_shift : _ADDR_MASK = Z.shiftl 255 24.
Proof. reflexivity. Qed.

(** An identifier of the 24-bit space has no bit under the mask. *)
Lemma land_id_mask (id : Z) :
  0 ≤ id < 2 ^ 24 → Z.land id _ADDR_MASK = 0.
Proof.
  intros Hid. apply Z.bits_inj'. intros n Hn.
  rewrite Z.land_spec, Z.bits_0, _ADDR_MASK_shift.
  destruct (Z.lt_ge_cases n 24) as [Hlt | Hge].
  - rewrite Z.shiftl_spec_low by done. apply andb_false_r.
  - assert (Z.testbit id n = false) as ->; [|done].
    destruct (Z.eq_dec id 0) as [-> | Hne]; [apply Z.bits_0|].
    apply Z.bits_above_log2; [lia|].
    assert (Z.log2 id < 24); [|lia].
    apply Z.log2_lt_pow2; lia.
Qed.

Lemma land_id_lnot_mask (id : Z) :
  0 ≤ id < 2 ^ 24 → Z.land id (Z.lnot _ADDR_MASK) = id.
Proof.
  intros Hid.
  rewrite <- Z.ldiff_land.
  apply Z.bits_inj'. intros n Hn.
  rewrite Z.ldiff_spec.
  pose proof (land_id_mask id Hid) as H0.
  apply (f_equal (λ z, Z.testbit z n)) in H0.
  rewrite Z.land_spec, Z.bits_0 in H0.
  destruct (Z.testbit id n), (Z.testbit _ADDR_MASK n); done.
Qed.

Lemma isVirtualMemAddress_encode (id : Z) :
  0 ≤ id < 2 ^ 24 → isVirtualMemAddress (getVirtualMemAddress id) = true.
Proof.
  intros Hid. unfold isVirtualMemAddress, getVirtualMemAddress.
  rewrite Z.land_lor_distr_l, (land_id_mask id Hid), Z.lor_0_r.
  reflexivity.
Qed.

End address_facts.

(** C9: the virtual-address round trip.  For every identifier of the 24-bit
    space, decoding its encoding gives it back and its encoding is a virtual
    address; and [getInternalID] returns unchanged a value that is not a
    virtual address. *)
Theorem virtual_address_round_trip :
  (∀ id : Z, 0 ≤ id < 2 ^ 24 →
     AddressValue.getInternalID (AddressValue.getVirtualMemAddress id) = id ∧
     AddressValue.isVirtualMemAddress (AddressValue.getVirtualMemAddress id)
     = true) ∧
  (∀ v : Z, AddressValue.isVirtualMemAddress v = false →
     AddressValue.getInternalID v = v).
Proof.
  split.
  - intros id Hid. split; [|by apply isVirtualMemAddress_encode].
    unfold AddressValue.getInternalID.
    rewrite isVirtualMemAddress_encode by done.
    unfold AddressValue.getVirtualMemAddress.
    rewrite Z.land_lor_distr_l, (land_id_lnot_mask id Hid).
    reflexivity.
  - intros v Hv. unfold AddressValue.getInternalID. by rewrite Hv.
Qed.

Lemma virtual_address_round_trip_witness :
  AddressValue.getInternalID (AddressValue.getVirtualMemAddress 123) = 123 ∧
  AddressValue.getInternalID 123 = 123.
Proof.
  destruct virtual_address_round_trip as (Henc & Hraw).
  split.
  - apply (Henc 123). lia.
  - apply Hraw. reflexivity.
Defined.

(** ** The merges of [AbstractState], key by key *)

Section merge_facts.
Implicit Types self other d : gmap Z AbstractValue.

(** A loop over a set of keys that writes, for each key, the entry [g]
    gives for it (or nothing) into an empty dictionary. *)
Lemma set_fold_entries (g : Z → option AbstractValue)
    (f : Z → gmap Z AbstractValue → gmap Z AbstractValue) (X : gset Z) :
  (∀ key d, f key d = match g key with
                      | Some v => <[key := v]> d
                      | None => d
                      end) →
  ∀ key, set_fold f ∅ X !! key = if decide (key ∈ X) then g key else None.
Proof.
  intros Hf. revert X.
  apply (set_fold_ind_L
           (λ d (Y : gset Z),
              ∀ key, d !! key = if decide (key ∈ Y) then g key else None)).
  - intros key. rewrite lookup_empty. by case_decide.
  - intros x Y d Hx IH key. rewrite Hf.
    destruct (decide (key = x)) as [-> | Hne].
    + rewrite decide_True by set_solver.
      destruct (g x) eqn:Hg.
      * by rewrite lookup_insert_eq.
      * rewrite IH. by rewrite decide_False.
    + assert (d !! key = (if decide (key ∈ {[x]} ∪ Y) then g key else None))
        as Hd.
      { rewrite IH.
        destruct (decide (key ∈ Y)) as [HY | HY],
                 (decide (key ∈ {[x]} ∪ Y)) as [HxY | HxY];
          [done | | | done].
        - exfalso. apply HxY, elem_of_union. by right.
        - exfalso. apply elem_of_union in HxY as [Hk | Hk]; [|done].
          by apply elem_of_singleton in Hk. }
      destruct (g x); [by rewrite lookup_insert_ne|done].
Qed.

Lemma widening_dict_lookup self other key :
  AbstractState.widening_dict self other !! key
  = Entry.widening (self !! key) (other !! key).
Proof.
  unfold AbstractState.widening_dict.
  rewrite (set_fold_entries
             (λ k, Entry.widening (self !! k) (other !! k))).
  - case_decide as Hin; [done|].
    rewrite elem_of_union, !elem_of_dom in Hin.
    destruct (self !! key) eqn:Hs; [exfalso; eauto|].
    destruct (other !! key) eqn:Ho; [exfalso; eauto|]. done.
  - intros k d. unfold AbstractState.widening_key, Entry.widening.
    destruct (self !! k) as [[?|?]|], (other !! k) as [[?|?]|]; done.
Qed.

Lemma narrowing_dict_lookup self other key :
  AbstractState.narrowing_dict self other !! key
  = Entry.narrowing (self !! key) (other !! key).
Proof.
  unfold AbstractState.narrowing_dict.
  rewrite (set_fold_entries
             (λ k, Entry.narrowing (self !! k) (other !! k))).
  - case_decide as Hin; [done|].
    rewrite elem_of_union, !elem_of_dom in Hin.
    destruct (self !! key) eqn:Hs; [exfalso; eauto|].
    destruct (other !! key) eqn:Ho; [exfalso; eauto|]. done.
  - intros k d. unfold AbstractState.narrowing_key, Entry.narrowing.
    destruct (self !! k) as [[?|?]|], (other !! k) as [[?|?]|]; done.
Qed.




Lemma join_Ok_type (a b v : AbstractValue) :
  AbstractValue.join a b = Ok v → AbstractValue._type a = AbstractValue._type b.
Proof. destruct a, b; simpl; congruence. Qed.



Lemma join_Raise (a b : AbstractValue) (e : exn) :
  AbstractValue.join a b = Raise e →
  e = ValueError ∧ AbstractValue._type a ≠ AbstractValue._type b.
Proof. destruct a, b; simpl; intros; simplify_eq; done. Qed.

(** The loop of [joinWith] over [other]: it raises exactly when some key
    of both dictionaries holds values of different tags, and the
    exception is [ValueError]; otherwise it leaves [Entry.join] at every
    key. *)
Lemma joinWith_dict_spec self other :
  match AbstractState.joinWith_dict self other with
  | Ok d =>
      (∀ key sv ov, self !! key = Some sv → other !! key = Some ov →
                    AbstractValue._type sv = AbstractValue._type ov) ∧
      (∀ key, d !! key = Entry.join (self !! key) (other !! key))
  | Raise e =>
      e = ValueError ∧
      ∃ key sv ov, self !! key = Some sv ∧ other !! key = Some ov ∧
                   AbstractValue._type sv ≠ AbstractValue._type ov
  end.
Proof.
  unfold AbstractState.joinWith_dict.
  induction other as [|i x m Hi Hfirst IH] using map_first_key_ind.
  - rewrite map_fold_empty. split.
    + intros key sv ov _ Ho. by rewrite lookup_empty in Ho.
    + intros key. rewrite lookup_empty. by destruct (self !! key).
  - rewrite map_fold_insert_first_key by done.
    destruct (map_fold AbstractState.joinWith_item (Ok self) m)
      as [d|e]; simpl.
    + destruct IH as [Hty Hd].
      assert (d !! i = self !! i) as Hdi.
      { rewrite Hd, Hi. by destruct (self !! i). }
      rewrite Hdi.
      destruct (self !! i) as [sv|] eqn:Hs.
      * destruct (AbstractValue.join sv x) as [v|e] eqn:Hj; simpl.
        -- split.
           ++ intros key sv' ov Hs' Ho.
              destruct (decide (key = i)) as [-> | Hne].
              ** rewrite lookup_insert_eq in Ho. simplify_eq.
                 by eapply join_Ok_type.
              ** rewrite lookup_insert_ne in Ho by done. by eapply Hty.
           ++ intros key. destruct (decide (key = i)) as [-> | Hne].
              ** rewrite !lookup_insert_eq, Hs. simpl. by rewrite Hj.
              ** rewrite !lookup_insert_ne by done. apply Hd.
        -- apply join_Raise in Hj as [-> Hne]. split; [done|].
           exists i, sv, x. by rewrite lookup_insert_eq.
      * assert (match x with
                | IntervalV i0 => Ok (<[i:=IntervalV i0]> d)
                | AddressV a => Ok (<[i:=AddressV a]> d)
                end = Ok (<[i:=x]> d)) as -> by (by destruct x).
        split.
        -- intros key sv' ov Hs' Ho.
           destruct (decide (key = i)) as [-> | Hne]; [congruence|].
           rewrite lookup_insert_ne in Ho by done. by eapply Hty.
        -- intros key. destruct (decide (key = i)) as [-> | Hne].
           ** by rewrite !lookup_insert_eq, Hs.
           ** rewrite !lookup_insert_ne by done. apply Hd.
    + destruct IH as [-> (key & sv & ov & Hs & Ho & Hne)].
      split; [done|]. exists key, sv, ov.
      rewrite lookup_insert_ne; [done|]. intros ->. congruence.
Qed.



End merge_facts.

(** ** Values of different tags *)




(** C10: [widening] and [narrowing] leave out of their result every key
    that both operands hold with values of different tags, in the variable
    store and in the object store alike.  Both are total: nothing is
    raised on the way. *)
Theorem widening_narrowing_drop_mismatched
    (self other : AbstractState AbstractValue) (key : Z) (sv ov : AbstractValue) :
  AbstractValue._type sv ≠ AbstractValue._type ov →
  (AbstractState._varToAbsVal self !! key = Some sv →
   AbstractState._varToAbsVal other !! key = Some ov →
   AbstractState._varToAbsVal (AbstractState.widening self other) !! key = None ∧
   AbstractState._varToAbsVal (AbstractState.narrowing self other) !! key = None) ∧
  (AbstractState._addrToAbsVal self !! key = Some sv →
   AbstractState._addrToAbsVal other !! key = Some ov →
   AbstractState._addrToAbsVal (AbstractState.widening self other) !! key = None ∧
   AbstractState._addrToAbsVal (AbstractState.narrowing self other) !! key = None).
Proof.
  intros Hne. destruct self as [svar saddr], other as [ovar oaddr]. simpl.
  split; intros Hs Ho;
    rewrite widening_dict_lookup, narrowing_dict_lookup, Hs, Ho;
    destruct sv, ov; simpl in *; done.
Qed.

(** Key 1 is an interval on one side and an address set on the other; key 2
    is an interval on both sides and stays. *)
Lemma widening_narrowing_drop_mismatched_witness :
  AbstractState._varToAbsVal
    (AbstractState.widening
       (State (<[ 1 := iv 1 5 ]> {[ 2 := iv 0 1 ]}) ∅)
       (State (<[ 1 := AbstractValue.createAddress {[ 3 ]} ]> {[ 2 := iv 0 1 ]}) ∅))
    !! 1 = None ∧
  AbstractState._varToAbsVal
    (AbstractState.narrowing
       (State (<[ 1 := iv 1 5 ]> {[ 2 := iv 0 1 ]}) ∅)
       (State (<[ 1 := AbstractValue.createAddress {[ 3 ]} ]> {[ 2 := iv 0 1 ]}) ∅))
    !! 1 = None.
Proof.
  apply (widening_narrowing_drop_mismatched _ _ 1 (iv 1 5)
           (AbstractValue.createAddress {[ 3 ]})).
  - simpl. discriminate.
  - reflexivity.
  - reflexivity.
Defined.

(** ** joinWith, then meetWith *)

(** C1 (the code at the failing input): [state1.joinWith(state2)] yields
    [{1:[1,10], 2:[15,20]}], as the property says, and leaves the receiver
    holding key 2; [meetWith(state2)] on that receiver then meets [[1,10]]
    with [[3,10]] and [[15,20]] with itself and yields
    [{1:[3,10], 2:[15,20]}], where the property (and the assertions of
    [test_join_meet]) have [{1:[3,5]}] without key 2. *)
Theorem joinWith_meetWith_example :
  AbstractState.joinWith state1 state2
  = Ok (State (<[ 1 := iv 1 10 ]> {[ 2 := iv 15 20 ]}) ∅) ∧
  AbstractState.meetWith
    (State (<[ 1 := iv 1 10 ]> {[ 2 := iv 15 20 ]}) ∅) state2
  = State (<[ 1 := iv 3 10 ]> {[ 2 := iv 15 20 ]}) ∅.
Proof.
  split; vm_compute; reflexivity.
Qed.

(** ** store *)

(** C7: [store] raises ([AssertionError], the failed
    [assert isVirtualMemAddress(addr)]) whenever [addr] is not a virtual
    address; on a virtual address that decodes to 0 it returns normally and
    leaves the state, both dictionaries, as it was; on any other virtual
    address it sets the object store at the decoded identifier to [val] and
    changes nothing else. *)
Theorem store_rules {V : Type} (self : AbstractState V) (addr : Z) (val : V) :
  (AddressValue.isVirtualMemAddress addr = false →
   AbstractState.store self addr val = Raise AssertionError) ∧
  (AddressValue.isVirtualMemAddress addr = true →
   AddressValue.getInternalID addr = 0 →
   AbstractState.store self addr val = Ok self) ∧
  (AddressValue.isVirtualMemAddress addr = true →
   AddressValue.getInternalID addr ≠ 0 →
   ∃ self',
     AbstractState.store self addr val = Ok self' ∧
     AbstractState._varToAbsVal self' = AbstractState._varToAbsVal self ∧
     AbstractState._addrToAbsVal self'
     = <[AddressValue.getInternalID addr := val]> (AbstractState._addrToAbsVal self) ∧
     AbstractState._addrToAbsVal self' !! AddressValue.getInternalID addr
     = Some val ∧
     ∀ key, key ≠ AddressValue.getInternalID addr →
            AbstractState._addrToAbsVal self' !! key
            = AbstractState._addrToAbsVal self !! key).
Proof.
  unfold AbstractState.store. split; [|split].
  - by intros ->.
  - intros -> ->. simpl. by destruct self.
  - intros -> Hne. simpl.
    destruct (Z.eqb_spec (AddressValue.getInternalID addr) 0) as [|_]; [done|].
    eexists. split; [done|]. simpl. split; [done|]. split; [done|].
    split; [apply lookup_insert_eq|].
    intros key Hkey. by apply lookup_insert_ne.
Qed.

(** A store through 5 (no tag), through the encoding of the null object,
    and through the encoding of object 123. *)
Lemma store_rules_witness :
  AbstractState.store (State ∅ ∅) 5 (iv 42 42) = Raise AssertionError ∧
  AbstractState.store (State ∅ ∅) (AddressValue.getVirtualMemAddress 0) (iv 42 42)
  = Ok (State ∅ ∅) ∧
  ∃ self',
    AbstractState.store (State ∅ ∅) (AddressValue.getVirtualMemAddress 123) (iv 42 42)
    = Ok self' ∧
    AbstractState._addrToAbsVal self' !! 123 = Some (iv 42 42).
Proof.
  split; [|split].
  - apply (proj1 (store_rules (State ∅ ∅) 5 (iv 42 42))). reflexivity.
  - apply (proj1 (proj2 (store_rules (State ∅ ∅)
                           (AddressValue.getVirtualMemAddress 0) (iv 42 42))));
      reflexivity.
  - destruct (proj2 (proj2 (store_rules (State ∅ ∅)
                              (AddressValue.getVirtualMemAddress 123) (iv 42 42)))
                eq_refl) as (self' & Hst & _ & _ & Hl & _).
    + vm_compute. discriminate.
    + exists self'. split; [exact Hst | exact Hl].
Defined.

(** ** The object store *)

Section obj_facts.
Import Obj.

(** A constructor call appends the new [AbstractValue] instance and its
    [IntervalValue] to the store. *)
Lemma createInterval_eq (lb ub : option Z) (h : heap) :
  createInterval lb ub h
  = (length h,
     h ++ [ValueObj (Some INTERVAL) (Some (S (length h))) None;
           IntervalObj lb ub]).
Proof.
  unfold createInterval, alloc. f_equal.
  rewrite length_app. simpl length. rewrite Nat.add_1_r.
  rewrite <- (assoc_L (++)).
  rewrite insert_app_r_alt by lia. by rewrite Nat.sub_diag.
Qed.

Lemma lookup_extend (h h2 : heap) (r : ref) (o : object) :
  h !! r = Some o → (h ++ h2) !! r = Some o.
Proof. apply lookup_app_l_Some. Qed.

Lemma read_value_extend (h h2 : heap) (r : ref) (v : AbstractValue) :
  read_value h r = Some v → read_value (h ++ h2) r = Some v.
Proof.
  unfold read_value. intros H.
  destruct (h !! r) as [o|] eqn:Hr; [|done]. simpl in H.
  rewrite (lookup_extend _ h2 _ _ Hr). simpl.
  destruct o as [| |[[]|] [i|] [a|]]; try done.
  - destruct (h !! i) as [oi|] eqn:Hi; [|done].
    by rewrite (lookup_extend _ h2 _ _ Hi).
  - destruct (h !! i) as [oi|] eqn:Hi; [|done].
    by rewrite (lookup_extend _ h2 _ _ Hi).
  - destruct (h !! a) as [oa|] eqn:Hi; [|done].
    by rewrite (lookup_extend _ h2 _ _ Hi).
  - destruct (h !! a) as [oa|] eqn:Hi; [|done].
    by rewrite (lookup_extend _ h2 _ _ Hi).
Qed.

(** What the call [AbstractValue.createInterval()] of [__getitem__] and
    [load] does to the store: every object keeps its reference and its
    fields, and the returned reference and the reference of its interval
    were unused. *)
Lemma createInterval_fresh_top (h : heap) :
  ∃ (r i : ref) (h' : heap),
    createInterval None None h = (r, h') ∧
    h !! r = None ∧ h !! i = None ∧
    h' !! r = Some (ValueObj (Some INTERVAL) (Some i) None) ∧
    h' !! i = Some (IntervalObj None None) ∧
    read_value h' r = Some (IntervalV IntervalValue.top) ∧
    (∀ r0 o, h !! r0 = Some o → h' !! r0 = Some o) ∧
    (∀ r0 v, read_value h r0 = Some v → read_value h' r0 = Some v).
Proof.
  eexists (length h), (S (length h)), _.
  split; [apply createInterval_eq|].
  assert ((h ++ [ValueObj (Some INTERVAL) (Some (S (length h))) None;
                 IntervalObj None None]) !! length h
          = Some (ValueObj (Some INTERVAL) (Some (S (length h))) None)) as Hr.
  { rewrite lookup_app_r by lia. by rewrite Nat.sub_diag. }
  assert ((h ++ [ValueObj (Some INTERVAL) (Some (S (length h))) None;
                 IntervalObj None None]) !! S (length h)
          = Some (IntervalObj None None)) as Hi.
  { rewrite lookup_app_r by lia.
    by replace (S (length h) - length h)%nat with 1%nat by lia. }
  split; [apply lookup_ge_None; lia|].
  split; [apply lookup_ge_None; lia|].
  split; [done|]. split; [done|].
  split; [unfold read_value; rewrite Hr; simpl; by rewrite Hi|].
  split.
  - intros r0 o. apply lookup_extend.
  - intros r0 v. apply read_value_extend.
Qed.

(** [bottom()] and [top()] return a state whose dictionaries hold the
    references of the receiver's. *)
Lemma bottom_top_same_references (self inv : AbstractState ref) (h h' : heap) :
  bottom self h = Some (inv, h') ∨ top self h = Some (inv, h') → inv = self.
Proof.
  unfold bottom, top. intros [H | H].
  - destruct (map_fold _ _ _); simplify_eq/=. by destruct self.
  - destruct (map_fold _ _ _); simplify_eq/=. by destruct self.
Qed.

End obj_facts.

(** C6: retrieval treats absence as top.  [__getitem__] returns the very
    reference the variable store holds for [var_id] when there is one, and
    otherwise a reference that was unused before the call and now holds an
    interval value whose interval, unused before as well, is top; [load] on
    a virtual address does the same with the object store at the decoded
    identifier.  Neither changes an object that was in the store. *)
Theorem absent_is_top (self : AbstractState Obj.ref) (h : Obj.heap) :
  (∀ var_id : Z, ∃ (r : Obj.ref) (h' : Obj.heap),
     Obj.getitem self var_id h = (r, h') ∧
     (∀ r0 o, h !! r0 = Some o → h' !! r0 = Some o) ∧
     match AbstractState._varToAbsVal self !! var_id with
     | Some r0 =>
         r = r0 ∧ ∀ v, Obj.read_value h r0 = Some v → Obj.read_value h' r = Some v
     | None =>
         h !! r = None ∧
         (∃ i, h' !! r = Some (Obj.ValueObj (Some INTERVAL) (Some i) None) ∧
               h !! i = None ∧ h' !! i = Some (Obj.IntervalObj None None)) ∧
         Obj.read_value h' r = Some (IntervalV IntervalValue.top)
     end) ∧
  (∀ addr : Z, AddressValue.isVirtualMemAddress addr = true →
     ∃ (r : Obj.ref) (h' : Obj.heap),
       Obj.load self addr h = (Ok r, h') ∧
       (∀ r0 o, h !! r0 = Some o → h' !! r0 = Some o) ∧
       match AbstractState._addrToAbsVal self !! AddressValue.getInternalID addr with
       | Some r0 =>
           r = r0 ∧ ∀ v, Obj.read_value h r0 = Some v → Obj.read_value h' r = Some v
       | None =>
           h !! r = None ∧
           (∃ i, h' !! r = Some (Obj.ValueObj (Some INTERVAL) (Some i) None) ∧
                 h !! i = None ∧ h' !! i = Some (Obj.IntervalObj None None)) ∧
           Obj.read_value h' r = Some (IntervalV IntervalValue.top)
       end).
Proof.
  destruct (createInterval_fresh_top h)
    as (r & i & h' & Hc & Hr & Hi & Hr' & Hi' & Hread & Hold & Hval).
  split.
  - intros var_id. unfold Obj.getitem. rewrite Hc.
    destruct (AbstractState._varToAbsVal self !! var_id) as [r0|]; simpl.
    + exists r0, h'. eauto.
    + exists r, h'. split; [done|]. split; [done|]. eauto 10.
  - intros addr Hvirt. unfold Obj.load. rewrite Hvirt. cbn [negb].
    destruct (AbstractState._addrToAbsVal self !! AddressValue.getInternalID addr)
      as [r0|].
    + exists r0, h. eauto.
    + rewrite Hc. exists r, h'. split; [done|]. split; [done|]. eauto 10.
Qed.

(** [load] of the encoding of object 7 from [shared_state], which holds
    [[2,3]] there, and of object 9, which it does not hold. *)
Lemma absent_is_top_witness :
  ∃ (r r' : Obj.ref) (h' : Obj.heap),
    Obj.load shared_state (AddressValue.getVirtualMemAddress 7) shared_heap
    = (Ok r, shared_heap) ∧
    Obj.read_value shared_heap r = Some (iv 2 3) ∧
    Obj.load shared_state (AddressValue.getVirtualMemAddress 9) shared_heap
    = (Ok r', h') ∧
    Obj.read_value h' r' = Some (IntervalV IntervalValue.top).
Proof.
  destruct (absent_is_top shared_state shared_heap) as [_ Hload].
  destruct (Hload (AddressValue.getVirtualMemAddress 9) eq_refl)
    as (r' & h' & Hl & _ & Habs).
  exists 4%nat, r', h'.
  split; [reflexivity|]. split; [vm_compute; reflexivity|].
  split; [exact Hl|]. apply Habs.
Defined.

(** C2 (the code at the failing input): [shared_state] holds [[1,5]] for
    variable 1.  [bottom()] returns a state that holds bottom for variable
    1 and the address set for variable 2, but the state it returns holds
    the receiver's own objects: after the call the receiver holds bottom
    for variable 1 as well.  The interval the object store holds for 7 is
    not visited and stays [[2,3]] in the result.  [top()] does the same
    with top. *)
Theorem bottom_top_alias_receiver :
  Obj.read_var shared_heap shared_state 1 = Some (iv 1 5) ∧
  (∃ inv h',
     Obj.bottom shared_state shared_heap = Some (inv, h') ∧
     Obj.read_var h' inv 1 = Some (IntervalV IntervalValue.bottom) ∧
     Obj.read_var h' inv 2 = Some (AbstractValue.createAddress {[ 3; 4 ]}) ∧
     AbstractState._varToAbsVal inv !! 1
     = AbstractState._varToAbsVal shared_state !! 1 ∧
     Obj.read_var h' shared_state 1 = Some (IntervalV IntervalValue.bottom) ∧
     Obj.read_addr h' inv 7 = Some (iv 2 3)) ∧
  (∃ inv h',
     Obj.top shared_state shared_heap = Some (inv, h') ∧
     Obj.read_var h' inv 1 = Some (IntervalV IntervalValue.top) ∧
     Obj.read_var h' inv 2 = Some (AbstractValue.createAddress {[ 3; 4 ]}) ∧
     AbstractState._varToAbsVal inv !! 1
     = AbstractState._varToAbsVal shared_state !! 1 ∧
     Obj.read_var h' shared_state 1 = Some (IntervalV IntervalValue.top) ∧
     Obj.read_addr h' inv 7 = Some (iv 2 3)).
Proof.
  split; [vm_compute; reflexivity|].
  split.
  - eexists _, _. split; [vm_compute; reflexivity|].
    repeat split; vm_compute; reflexivity.
  - eexists _, _. split; [vm_compute; reflexivity|].
    repeat split; vm_compute; reflexivity.
Qed.


(** * Further properties *)

(** ** The lattice of intervals *)

(** Case analysis on the integer comparisons of the goal. *)
Ltac cmp_cases :=
  repeat (match goal with
          | |- context [?a >? ?b] => destruct (Z.gtb_spec a b)
          | |- context [?a <? ?b] => destruct (Z.ltb_spec a b)
          | |- context [?a <=? ?b] => destruct (Z.leb_spec a b)
          | |- context [?a >=? ?b] => destruct (Z.geb_spec a b)
          | |- context [?a =? ?b] => destruct (Z.eqb_spec a b)
          end; simpl).

(** Unfolds the interval operations of a goal over intervals given by their
    bounds, splits on the comparisons and closes the arithmetic. *)
Ltac interval_auto :=
  unfold IntervalValue.contain, IntervalValue.equals, IntervalValue.join,
    IntervalValue.meet, IntervalValue.widening, IntervalValue.narrowing,
    IntervalValue.is_bottom, IntervalValue.is_top, IntervalValue.bound_eqb,
    IntervalValue.bottom, IntervalValue.top;
  simpl; cmp_cases; simpl;
  try first [ done | lia | intros; simplify_eq; lia
            | intros; f_equal; f_equal; lia
            | intuition (first [ done | lia | simplify_eq; lia
                               | f_equal; f_equal; lia ]) ].

Section interval_lattice.
Import IntervalValue.
Implicit Types a b c : IntervalValue.

Lemma contain_trans a b c :
  contain a b = true → contain b c = true → contain a c = true.
Proof.
  destruct a as [[al|] [au|]], b as [[bl|] [bu|]], c as [[cl|] [cu|]];
    interval_auto.
Qed.

Lemma contain_refl_iff a : contain a a = true ↔ is_bottom a = false.
Proof. destruct a as [[al|] [au|]]; interval_auto. Qed.

Lemma contain_antisym a b :
  contain a b = true → contain b a = true → equals a b = true.
Proof. destruct a as [[al|] [au|]], b as [[bl|] [bu|]]; interval_auto. Qed.

Lemma join_upper a b :
  is_bottom a && is_bottom b = false →
  contain (join a b) a = true ∧ contain (join a b) b = true.
Proof. destruct a as [[al|] [au|]], b as [[bl|] [bu|]]; interval_auto. Qed.

Lemma join_least a b c :
  contain c a = true → contain c b = true → contain c (join a b) = true.
Proof.
  destruct a as [[al|] [au|]], b as [[bl|] [bu|]], c as [[cl|] [cu|]];
    interval_auto.
Qed.

Lemma meet_lower a b :
  (is_bottom a = false → contain a (meet a b) = true) ∧
  (is_bottom b = false → contain b (meet a b) = true).
Proof. destruct a as [[al|] [au|]], b as [[bl|] [bu|]]; interval_auto. Qed.

Lemma meet_greatest a b c :
  is_bottom c = false →
  contain a c = true → contain b c = true → contain (meet a b) c = true.
Proof.
  destruct a as [[al|] [au|]], b as [[bl|] [bu|]], c as [[cl|] [cu|]];
    interval_auto.
Qed.

Lemma join_idemp a : join a a = a.
Proof. destruct a as [[al|] [au|]]; interval_auto. Qed.

Lemma join_assoc a b c : join (join a b) c = join a (join b c).
Proof.
  destruct a as [[al|] [au|]], b as [[bl|] [bu|]], c as [[cl|] [cu|]];
    interval_auto.
Qed.

Lemma join_comm a b :
  is_bottom a && is_bottom b = false → join a b = join b a.
Proof. destruct a as [[al|] [au|]], b as [[bl|] [bu|]]; interval_auto. Qed.

Lemma join_comm_equals a b : equals (join a b) (join b a) = true.
Proof. destruct a as [[al|] [au|]], b as [[bl|] [bu|]]; interval_auto. Qed.

Lemma meet_comm a b : meet a b = meet b a.
Proof. destruct a as [[al|] [au|]], b as [[bl|] [bu|]]; interval_auto. Qed.

Lemma meet_assoc a b c : meet (meet a b) c = meet a (meet b c).
Proof.
  destruct a as [[al|] [au|]], b as [[bl|] [bu|]], c as [[cl|] [cu|]];
    interval_auto.
Qed.

Lemma meet_idemp a :
  (is_bottom a = false → meet a a = a) ∧ (is_bottom a = true → meet a a = bottom).
Proof. destruct a as [[al|] [au|]]; interval_auto. Qed.

Lemma widening_above_join a b :
  is_bottom a && is_bottom b = false →
  contain (widening a b) (join a b) = true.
Proof. destruct a as [[al|] [au|]], b as [[bl|] [bu|]]; interval_auto. Qed.

Lemma narrowing_widening_join a b :
  is_bottom a && is_bottom b = false →
  narrowing (widening a b) (join a b) = join a b.
Proof. destruct a as [[al|] [au|]], b as [[bl|] [bu|]]; interval_auto. Qed.

Lemma narrowing_mid a b :
  is_bottom b = false → contain a b = true →
  contain a (narrowing a b) = true ∧ contain (narrowing a b) b = true.
Proof. destruct a as [[al|] [au|]], b as [[bl|] [bu|]]; interval_auto. Qed.

Lemma equals_sym a b : equals a b = equals b a.
Proof. destruct a as [[al|] [au|]], b as [[bl|] [bu|]]; interval_auto. Qed.

Lemma equals_trans a b c :
  equals a b = true → equals b c = true → equals a c = true.
Proof.
  destruct a as [[al|] [au|]], b as [[bl|] [bu|]], c as [[cl|] [cu|]];
    interval_auto.
Qed.

Lemma equals_not_bottom a b :
  is_bottom a = false → (equals a b = true ↔ a = b).
Proof. destruct a as [[al|] [au|]], b as [[bl|] [bu|]]; interval_auto. Qed.

Lemma contain_top a : contain top a = true ∧ (contain a top = true ↔ is_top a = true).
Proof. destruct a as [[al|] [au|]]; interval_auto. Qed.

Lemma join_top a : join a top = top ∧ join top a = top.
Proof. destruct a as [[al|] [au|]]; interval_auto. Qed.

Lemma meet_top a : is_bottom a = false → meet a top = a ∧ meet top a = a.
Proof. destruct a as [[al|] [au|]]; interval_auto. Qed.

End interval_lattice.

(** X1: [contain] is transitive, is antisymmetric up to [equals], and holds
    between an interval and itself exactly when the interval is not
    bottom. *)
Theorem interval_contain_order :
  (∀ a b c : IntervalValue,
     IntervalValue.contain a b = true → IntervalValue.contain b c = true →
     IntervalValue.contain a c = true) ∧
  (∀ a b : IntervalValue,
     IntervalValue.contain a b = true → IntervalValue.contain b a = true →
     IntervalValue.equals a b = true) ∧
  (∀ a : IntervalValue,
     IntervalValue.contain a a = true ↔ IntervalValue.is_bottom a = false).
Proof.
  split; [|split].
  - apply contain_trans.
  - apply contain_antisym.
  - apply contain_refl_iff.
Qed.

Lemma interval_contain_order_witness :
  IntervalValue.contain (Interval None (Some 9)) (Interval (Some 2) (Some 3)) = true ∧
  IntervalValue.equals (Interval (Some 2) (Some 3)) (Interval (Some 2) (Some 3)) = true.
Proof.
  destruct interval_contain_order as (Htrans & Hanti & _).
  split.
  - apply (Htrans _ (Interval (Some 0) (Some 5))); reflexivity.
  - apply Hanti; reflexivity.
Defined.

(** X2: [join] is the least upper bound for [contain]: unless both
    operands are bottom the join contains both, and every interval that
    contains both operands contains their join. *)
Theorem interval_join_lub (a b : IntervalValue) :
  (IntervalValue.is_bottom a && IntervalValue.is_bottom b = false →
   IntervalValue.contain (IntervalValue.join a b) a = true ∧
   IntervalValue.contain (IntervalValue.join a b) b = true) ∧
  (∀ c : IntervalValue,
     IntervalValue.contain c a = true → IntervalValue.contain c b = true →
     IntervalValue.contain c (IntervalValue.join a b) = true).
Proof.
  split.
  - apply join_upper.
  - intros c. apply join_least.
Qed.

Lemma interval_join_lub_witness :
  IntervalValue.contain
    (IntervalValue.join (Interval (Some 1) (Some 5)) (Interval (Some 3) None))
    (Interval (Some 3) None) = true ∧
  IntervalValue.contain (Interval None None)
    (IntervalValue.join (Interval (Some 1) (Some 5)) (Interval (Some 3) None))
  = true.
Proof.
  destruct (interval_join_lub (Interval (Some 1) (Some 5)) (Interval (Some 3) None))
    as [Hup Hleast].
  split.
  - apply Hup. reflexivity.
  - apply Hleast; reflexivity.
Defined.

(** X3: [meet] is the greatest lower bound for [contain]: an operand that
    is not bottom contains the meet, and the meet contains every interval
    that is not bottom and that both operands contain. *)
Theorem interval_meet_glb (a b : IntervalValue) :
  (IntervalValue.is_bottom a = false →
   IntervalValue.contain a (IntervalValue.meet a b) = true) ∧
  (IntervalValue.is_bottom b = false →
   IntervalValue.contain b (IntervalValue.meet a b) = true) ∧
  (∀ c : IntervalValue,
     IntervalValue.is_bottom c = false →
     IntervalValue.contain a c = true → IntervalValue.contain b c = true →
     IntervalValue.contain (IntervalValue.meet a b) c = true).
Proof.
  split; [apply meet_lower|]. split; [apply meet_lower|].
  intros c. apply meet_greatest.
Qed.

Lemma interval_meet_glb_witness :
  IntervalValue.contain (Interval (Some 1) (Some 5))
    (IntervalValue.meet (Interval (Some 1) (Some 5)) (Interval (Some 7) (Some 9)))
  = true ∧
  IntervalValue.contain
    (IntervalValue.meet (Interval (Some 1) (Some 5)) (Interval (Some 3) None))
    (Interval (Some 4) (Some 4)) = true.
Proof.
  split.
  - apply (interval_meet_glb (Interval (Some 1) (Some 5)) (Interval (Some 7) (Some 9))).
    reflexivity.
  - apply (interval_meet_glb (Interval (Some 1) (Some 5)) (Interval (Some 3) None));
      reflexivity.
Defined.

(** X4: [join] is idempotent and associative; it is commutative unless
    both operands are bottom, where each order returns its second operand,
    and the two results are [equals] in every case. *)
Theorem interval_join_laws :
  (∀ a : IntervalValue, IntervalValue.join a a = a) ∧
  (∀ a b c : IntervalValue,
     IntervalValue.join (IntervalValue.join a b) c
     = IntervalValue.join a (IntervalValue.join b c)) ∧
  (∀ a b : IntervalValue,
     IntervalValue.is_bottom a && IntervalValue.is_bottom b = false →
     IntervalValue.join a b = IntervalValue.join b a) ∧
  (∀ a b : IntervalValue,
     IntervalValue.is_bottom a = true →
     IntervalValue.join a b = b) ∧
  (∀ a b : IntervalValue,
     IntervalValue.equals (IntervalValue.join a b) (IntervalValue.join b a)
     = true).
Proof.
  split; [apply join_idemp|]. split; [apply join_assoc|].
  split; [apply join_comm|]. split; [|apply join_comm_equals].
  intros a b Ha. unfold IntervalValue.join. rewrite Ha. by destruct b.
Qed.

Lemma interval_join_laws_witness :
  IntervalValue.join (Interval (Some 1) (Some 5)) (Interval (Some 3) None)
  = IntervalValue.join (Interval (Some 3) None) (Interval (Some 1) (Some 5)) ∧
  IntervalValue.join (Interval (Some 9) (Some 2)) (Interval (Some 7) (Some 4))
  = Interval (Some 7) (Some 4).
Proof.
  destruct interval_join_laws as (_ & _ & Hcomm & Hbot & _).
  split.
  - apply Hcomm. reflexivity.
  - apply Hbot. reflexivity.
Defined.

(** X5: [meet] is commutative and associative; the meet of an interval
    with itself is the interval, or the canonical bottom [Interval(1,0)]
    when the interval is bottom. *)
Theorem interval_meet_laws :
  (∀ a b : IntervalValue, IntervalValue.meet a b = IntervalValue.meet b a) ∧
  (∀ a b c : IntervalValue,
     IntervalValue.meet (IntervalValue.meet a b) c
     = IntervalValue.meet a (IntervalValue.meet b c)) ∧
  (∀ a : IntervalValue,
     IntervalValue.is_bottom a = false → IntervalValue.meet a a = a) ∧
  (∀ a : IntervalValue,
     IntervalValue.is_bottom a = true →
     IntervalValue.meet a a = IntervalValue.bottom).
Proof.
  split; [apply meet_comm|]. split; [apply meet_assoc|].
  split; intros a; apply meet_idemp.
Qed.

Lemma interval_meet_laws_witness :
  IntervalValue.meet (Interval (Some 1) None) (Interval (Some 1) None)
  = Interval (Some 1) None ∧
  IntervalValue.meet (Interval (Some 9) (Some 2)) (Interval (Some 9) (Some 2))
  = Interval (Some 1) (Some 0).
Proof.
  destruct interval_meet_laws as (_ & _ & Hid & Hbot).
  split.
  - apply Hid. reflexivity.
  - apply Hbot. reflexivity.
Defined.

(** X6: top is the greatest interval: it contains every interval, only an
    interval that is top contains it, joining with it gives top, and
    meeting an interval that is not bottom with it gives the interval
    back. *)
Theorem interval_top_laws (a : IntervalValue) :
  IntervalValue.contain IntervalValue.top a = true ∧
  (IntervalValue.contain a IntervalValue.top = true
   ↔ IntervalValue.is_top a = true) ∧
  IntervalValue.join a IntervalValue.top = IntervalValue.top ∧
  IntervalValue.join IntervalValue.top a = IntervalValue.top ∧
  (IntervalValue.is_bottom a = false →
   IntervalValue.meet a IntervalValue.top = a ∧
   IntervalValue.meet IntervalValue.top a = a).
Proof.
  split; [apply contain_top|]. split; [apply contain_top|].
  split; [apply join_top|]. split; [apply join_top|]. apply meet_top.
Qed.

Lemma interval_top_laws_witness :
  IntervalValue.meet (Interval (Some 1) (Some 5)) IntervalValue.top
  = Interval (Some 1) (Some 5).
Proof.
  apply (interval_top_laws (Interval (Some 1) (Some 5))). reflexivity.
Defined.

(** X7: [equals] is an equivalence relation on intervals; it puts all
    bottom intervals into one class, and on an interval that is not bottom
    it is equality of both bounds. *)
Theorem interval_equals_equivalence :
  (∀ a : IntervalValue, IntervalValue.equals a a = true) ∧
  (∀ a b : IntervalValue, IntervalValue.equals a b = IntervalValue.equals b a) ∧
  (∀ a b c : IntervalValue,
     IntervalValue.equals a b = true → IntervalValue.equals b c = true →
     IntervalValue.equals a c = true) ∧
  (∀ a b : IntervalValue,
     IntervalValue.is_bottom a = true →
     IntervalValue.equals a b = IntervalValue.is_bottom b) ∧
  (∀ a b : IntervalValue,
     IntervalValue.is_bottom a = false →
     (IntervalValue.equals a b = true ↔ a = b)).
Proof.
  split; [apply equals_refl|]. split; [apply equals_sym|].
  split; [apply equals_trans|]. split; [|apply equals_not_bottom].
  intros a b Ha. unfold IntervalValue.equals. rewrite Ha.
  by destruct (IntervalValue.is_bottom b).
Qed.

Lemma interval_equals_equivalence_witness :
  IntervalValue.equals (Interval (Some 9) (Some 2)) (Interval (Some 1) (Some 0))
  = true ∧
  IntervalValue.equals (Interval (Some 1) (Some 5)) (Interval (Some 1) (Some 6))
  = false.
Proof.
  destruct interval_equals_equivalence as (_ & _ & _ & Hbot & Hnb).
  split.
  - rewrite Hbot; reflexivity.
  - destruct (IntervalValue.equals (Interval (Some 1) (Some 5))
                (Interval (Some 1) (Some 6))) eqn:He; [|reflexivity].
    apply Hnb in He; [discriminate He | reflexivity].
Defined.

(** X8: unless both operands are bottom, [a.widening(b)] contains
    [a.join(b)], and narrowing it with that join gives the join back:
    [a.widening(b).narrowing(a.join(b))] is [a.join(b)]. *)
Theorem widening_then_narrowing (a b : IntervalValue) :
  IntervalValue.is_bottom a && IntervalValue.is_bottom b = false →
  IntervalValue.contain (IntervalValue.widening a b) (IntervalValue.join a b)
  = true ∧
  IntervalValue.narrowing (IntervalValue.widening a b) (IntervalValue.join a b)
  = IntervalValue.join a b.
Proof.
  intros H. split.
  - by apply widening_above_join.
  - by apply narrowing_widening_join.
Qed.

Lemma widening_then_narrowing_witness :
  IntervalValue.narrowing
    (IntervalValue.widening (Interval (Some 1) (Some 5)) (Interval (Some 0) (Some 10)))
    (IntervalValue.join (Interval (Some 1) (Some 5)) (Interval (Some 0) (Some 10)))
  = Interval (Some 0) (Some 10).
Proof.
  apply (widening_then_narrowing (Interval (Some 1) (Some 5))
           (Interval (Some 0) (Some 10))).
  reflexivity.
Defined.

(** X9: narrowing an interval with one it contains stays in between: when
    [a] contains [b] and [b] is not bottom, [a] contains [a.narrowing(b)]
    and [a.narrowing(b)] contains [b]. *)
Theorem narrowing_between (a b : IntervalValue) :
  IntervalValue.is_bottom b = false →
  IntervalValue.contain a b = true →
  IntervalValue.contain a (IntervalValue.narrowing a b) = true ∧
  IntervalValue.contain (IntervalValue.narrowing a b) b = true.
Proof. apply narrowing_mid. Qed.

Lemma narrowing_between_witness :
  IntervalValue.contain (Interval None (Some 7))
    (IntervalValue.narrowing (Interval None (Some 7)) (Interval (Some 2) (Some 3)))
  = true ∧
  IntervalValue.contain
    (IntervalValue.narrowing (Interval None (Some 7)) (Interval (Some 2) (Some 3)))
    (Interval (Some 2) (Some 3)) = true.
Proof.
  apply (narrowing_between (Interval None (Some 7)) (Interval (Some 2) (Some 3)));
    reflexivity.
Defined.


(** ** Virtual addresses, the other way round *)

Section address_decode.
Import AddressValue.

Lemma mask_split (v : Z) :
  Z.lor (Z.land v _ADDR_MASK) (Z.land v (Z.lnot _ADDR_MASK)) = v.
Proof.
  apply Z.bits_inj'. intros n Hn.
  rewrite Z.lor_spec, !Z.land_spec, Z.lnot_spec by done.
  destruct (Z.testbit v n), (Z.testbit _ADDR_MASK n); done.
Qed.

Lemma getInternalID_not_virtual (v : Z) :
  isVirtualMemAddress v = true →
  isVirtualMemAddress (getInternalID v) = false.
Proof.
  intros Hv. unfold getInternalID. rewrite Hv.
  unfold isVirtualMemAddress.
  rewrite <- Z.land_assoc.
  replace (Z.land (Z.lnot _ADDR_MASK) _ADDR_MASK) with 0 by reflexivity.
  by rewrite Z.land_0_r.
Qed.

Lemma getInternalID_encode (id : Z) :
  0 ≤ id < 2 ^ 24 → getInternalID (getVirtualMemAddress id) = id.
Proof.
  intros Hid. unfold getInternalID.
  rewrite isVirtualMemAddress_encode by done.
  unfold getVirtualMemAddress.
  rewrite Z.land_lor_distr_l, (land_id_lnot_mask id Hid).
  reflexivity.
Qed.

End address_decode.

(** X10: decoding is undone by encoding on every virtual address, whatever
    its bits outside the mask: [getVirtualMemAddress(getInternalID(v))] is
    [v].  Decoding twice is decoding once (a decoded identifier has no bit
    under the mask, so it is not a virtual address).  The encoding is
    injective on the 24-bit identifier space. *)
Theorem virtual_address_decode_encode :
  (∀ v : Z, AddressValue.isVirtualMemAddress v = true →
     AddressValue.getVirtualMemAddress (AddressValue.getInternalID v) = v) ∧
  (∀ v : Z, AddressValue.getInternalID (AddressValue.getInternalID v)
            = AddressValue.getInternalID v) ∧
  (∀ i j : Z, 0 ≤ i < 2 ^ 24 → 0 ≤ j < 2 ^ 24 →
     AddressValue.getVirtualMemAddress i = AddressValue.getVirtualMemAddress j →
     i = j).
Proof.
  split; [|split].
  - intros v Hv. unfold AddressValue.getInternalID. rewrite Hv.
    unfold AddressValue.getVirtualMemAddress.
    unfold AddressValue.isVirtualMemAddress in Hv.
    apply Z.eqb_eq in Hv. rewrite <- Hv at 1. apply mask_split.
  - intros v. destruct (AddressValue.isVirtualMemAddress v) eqn:Hv.
    + pose proof (getInternalID_not_virtual v Hv) as Hid.
      unfold AddressValue.getInternalID at 1. by rewrite Hid.
    + unfold AddressValue.getInternalID. by rewrite !Hv.
  - intros i j Hi Hj Heq.
    rewrite <- (getInternalID_encode i Hi), <- (getInternalID_encode j Hj).
    by rewrite Heq.
Qed.

Lemma virtual_address_decode_encode_witness :
  AddressValue.getVirtualMemAddress (AddressValue.getInternalID 0x7F00007B)
  = 0x7F00007B.
Proof.
  apply (proj1 virtual_address_decode_encode). reflexivity.
Defined.

(** ** Abstract values *)

Section value_facts.
Implicit Types a b c : AbstractValue.

Lemma address_equals_eq (x y : AddressValue) :
  AddressValue.equals x y = true ↔ x = y.
Proof.
  unfold AddressValue.equals. rewrite bool_decide_eq_true.
  destruct x, y; simpl. split; congruence.
Qed.

Lemma value_equals_refl a : AbstractValue.equals a a = true.
Proof.
  destruct a; simpl; [apply equals_refl | by apply address_equals_eq].
Qed.

Lemma value_equals_sym a b : AbstractValue.equals a b = AbstractValue.equals b a.
Proof.
  destruct a as [x|x], b as [y|y]; simpl; try done.
  - apply equals_sym.
  - unfold AddressValue.equals. apply bool_decide_ext. split; congruence.
Qed.

Lemma value_equals_trans a b c :
  AbstractValue.equals a b = true → AbstractValue.equals b c = true →
  AbstractValue.equals a c = true.
Proof.
  destruct a as [x|x], b as [y|y], c as [z|z]; simpl; try done.
  - apply equals_trans.
  - rewrite !address_equals_eq. congruence.
Qed.

Lemma value_equals_type a b :
  AbstractValue.equals a b = true → AbstractValue._type a = AbstractValue._type b.
Proof. destruct a, b; simpl; done. Qed.

End value_facts.

(** ** sliceState *)

Section slice_facts.
Context {V : Type}.
Implicit Types (self : AbstractState V) (ids : gset Z).

(** The loop of [sliceState]: the result holds the receiver's entry for
    the identifiers of [ids] and nothing else. *)
Lemma sliceState_lookup self ids key :
  AbstractState._varToAbsVal (AbstractState.sliceState self ids) !! key
  = if decide (key ∈ ids) then AbstractState._varToAbsVal self !! key else None.
Proof.
  unfold AbstractState.sliceState. simpl. revert ids.
  apply (set_fold_ind_L
           (λ (d : gmap Z V) (Y : gset Z),
              d !! key = if decide (key ∈ Y)
                         then AbstractState._varToAbsVal self !! key else None)).
  - rewrite lookup_empty. by rewrite decide_False by apply not_elem_of_empty.
  - intros x Y d Hx IH.
    destruct (decide (key = x)) as [-> | Hne].
    + rewrite decide_True by (apply elem_of_union; left; by apply elem_of_singleton).
      rewrite decide_False in IH by done.
      destruct (AbstractState._varToAbsVal self !! x) eqn:Hs.
      * by rewrite lookup_insert_eq.
      * done.
    + assert (d !! key = (if decide (key ∈ {[x]} ∪ Y)
                          then AbstractState._varToAbsVal self !! key else None))
        as Hd.
      { rewrite IH.
        destruct (decide (key ∈ Y)) as [HY | HY],
                 (decide (key ∈ {[x]} ∪ Y)) as [HxY | HxY]; [done | | | done].
        - exfalso. apply HxY, elem_of_union. by right.
        - exfalso. apply elem_of_union in HxY as [Hk | Hk]; [|done].
          by apply elem_of_singleton in Hk. }
      destruct (AbstractState._varToAbsVal self !! x);
        [by rewrite lookup_insert_ne|done].
Qed.

End slice_facts.

(** X13: [sliceState(ids)] holds exactly the variable-store entries of
    the receiver whose key is in [ids], holds an empty object store
    whatever the receiver's is, and slicing a slice is slicing by the
    intersection. *)
Theorem sliceState_spec {V : Type} (self : AbstractState V) (ids ids' : gset Z) :
  (∀ key v,
     AbstractState._varToAbsVal (AbstractState.sliceState self ids) !! key = Some v
     ↔ key ∈ ids ∧ AbstractState._varToAbsVal self !! key = Some v) ∧
  dom (AbstractState._varToAbsVal (AbstractState.sliceState self ids))
  = ids ∩ dom (AbstractState._varToAbsVal self) ∧
  AbstractState._addrToAbsVal (AbstractState.sliceState self ids) = ∅ ∧
  AbstractState.sliceState (AbstractState.sliceState self ids) ids'
  = AbstractState.sliceState self (ids ∩ ids').
Proof.
  split; [|split; [|split]].
  - intros key v. rewrite sliceState_lookup.
    destruct (decide (key ∈ ids)) as [Hin | Hnin].
    + split; [by intros ? | by intros [_ ?]].
    + split; [done | by intros [? _]].
  - apply set_eq. intros key.
    rewrite elem_of_intersection, !elem_of_dom, sliceState_lookup.
    destruct (decide (key ∈ ids)); [tauto|].
    split; [by intros [? ?] | tauto].
  - done.
  - assert (∀ s1 s2 : AbstractState V,
              AbstractState._varToAbsVal s1 = AbstractState._varToAbsVal s2 →
              AbstractState._addrToAbsVal s1 = AbstractState._addrToAbsVal s2 →
              s1 = s2) as Hext.
    { intros [] []; simpl; congruence. }
    apply Hext; [|done].
    apply map_eq. intros key. rewrite !sliceState_lookup.
    destruct (decide (key ∈ ids)), (decide (key ∈ ids')),
             (decide (key ∈ ids ∩ ids')) as [Hi | Hi]; try done.
    + exfalso. apply Hi. by apply elem_of_intersection.
    + apply elem_of_intersection in Hi. tauto.
    + apply elem_of_intersection in Hi. tauto.
    + apply elem_of_intersection in Hi. tauto.
Qed.


Lemma state_ext {V : Type} (s1 s2 : AbstractState V) :
  AbstractState._varToAbsVal s1 = AbstractState._varToAbsVal s2 →
  AbstractState._addrToAbsVal s1 = AbstractState._addrToAbsVal s2 →
  s1 = s2.
Proof. destruct s1, s2; simpl; congruence. Qed.

(** ** What joinWith leaves *)

Section joinWith_facts.
Implicit Types self other d : gmap Z AbstractValue.

Lemma joinWith_dict_lookup self other d key :
  AbstractState.joinWith_dict self other = Ok d →
  d !! key = Entry.join (self !! key) (other !! key).
Proof.
  intros Hd. pose proof (joinWith_dict_spec self other) as H.
  rewrite Hd in H. apply H.
Qed.

Lemma Entry_join_is_Some (s o : option AbstractValue) :
  (∀ sv ov, s = Some sv → o = Some ov →
            AbstractValue._type sv = AbstractValue._type ov) →
  is_Some (Entry.join s o) ↔ is_Some s ∨ is_Some o.
Proof.
  intros Hty. destruct s as [sv|], o as [ov|]; simpl.
  - specialize (Hty sv ov eq_refl eq_refl).
    destruct sv, ov; simpl in *; try done; split; eauto.
  - split; eauto.
  - split; eauto.
  - split; [intros [? ?]; done | intros [[? ?] | [? ?]]; done].
Qed.

Lemma joinWith_dict_dom self other d :
  AbstractState.joinWith_dict self other = Ok d →
  dom d = dom self ∪ dom other.
Proof.
  intros Hd. pose proof (joinWith_dict_spec self other) as H.
  rewrite Hd in H. destruct H as [Hty Hlook].
  apply set_eq. intros key.
  rewrite elem_of_union, !elem_of_dom, Hlook.
  apply Entry_join_is_Some. intros sv ov Hs Ho. by eapply Hty.
Qed.

End joinWith_facts.

(** X17: when [joinWith] returns, each store of the receiver has the keys
    of both operands; a key only one operand held keeps that operand's
    value, and a key both held has the join of the two values. *)
Theorem joinWith_entries (self other joined : AbstractState AbstractValue) :
  AbstractState.joinWith self other = Ok joined →
  dom (AbstractState._varToAbsVal joined)
  = dom (AbstractState._varToAbsVal self) ∪ dom (AbstractState._varToAbsVal other) ∧
  dom (AbstractState._addrToAbsVal joined)
  = dom (AbstractState._addrToAbsVal self) ∪ dom (AbstractState._addrToAbsVal other) ∧
  ∀ key,
    AbstractState._varToAbsVal joined !! key
    = Entry.join (AbstractState._varToAbsVal self !! key)
                 (AbstractState._varToAbsVal other !! key) ∧
    AbstractState._addrToAbsVal joined !! key
    = Entry.join (AbstractState._addrToAbsVal self !! key)
                 (AbstractState._addrToAbsVal other !! key).
Proof.
  unfold AbstractState.joinWith. intros H.
  destruct (AbstractState.joinWith_dict (AbstractState._varToAbsVal self)
              (AbstractState._varToAbsVal other)) as [dv|ev] eqn:Hv;
    simpl in H; [|done].
  destruct (AbstractState.joinWith_dict (AbstractState._addrToAbsVal self)
              (AbstractState._addrToAbsVal other)) as [da|ea] eqn:Ha;
    simpl in H; [|done].
  injection H as <-. simpl.
  split; [by apply joinWith_dict_dom|]. split; [by apply joinWith_dict_dom|].
  intros key. split; by apply joinWith_dict_lookup.
Qed.

Lemma joinWith_entries_witness :
  ∃ joined,
    AbstractState.joinWith state1 state2 = Ok joined ∧
    AbstractState._varToAbsVal joined !! 2 = Some (iv 15 20).
Proof.
  eexists. split; [reflexivity|].
  destruct (joinWith_entries state1 state2 _ eq_refl) as (_ & _ & H).
  destruct (H 2) as [Hv _]. rewrite Hv. reflexivity.
Defined.

(** X22: what [widening] and [narrowing] leave for a key, in each store: a
    key held by one operand only keeps that operand's value; a key both
    hold as intervals gets the widened (narrowed) interval, and a key both
    hold as address sets gets the union (intersection). *)
Theorem widening_narrowing_entries (self other : AbstractState AbstractValue)
    (key : Z) :
  AbstractState._varToAbsVal (AbstractState.widening self other) !! key
  = Entry.widening (AbstractState._varToAbsVal self !! key)
                   (AbstractState._varToAbsVal other !! key) ∧
  AbstractState._addrToAbsVal (AbstractState.widening self other) !! key
  = Entry.widening (AbstractState._addrToAbsVal self !! key)
                   (AbstractState._addrToAbsVal other !! key) ∧
  AbstractState._varToAbsVal (AbstractState.narrowing self other) !! key
  = Entry.narrowing (AbstractState._varToAbsVal self !! key)
                    (AbstractState._varToAbsVal other !! key) ∧
  AbstractState._addrToAbsVal (AbstractState.narrowing self other) !! key
  = Entry.narrowing (AbstractState._addrToAbsVal self !! key)
                    (AbstractState._addrToAbsVal other !! key).
Proof.
  simpl. by rewrite !widening_dict_lookup, !narrowing_dict_lookup.
Qed.


(** ** getGepObjAddrs *)

Section gep_facts.

(** The loop of [getGepObjAddrs] over the base addresses: the result holds
    the shifted addresses and has as many elements as the base set. *)
Lemma shift_loop (c : Z) (X : gset Z) :
  (∀ x, x ∈ set_fold (λ addr (result_addrs : gset Z), result_addrs ∪ {[ addr + c ]}) ∅ X
        ↔ x - c ∈ X) ∧
  size (set_fold (λ addr (result_addrs : gset Z), result_addrs ∪ {[ addr + c ]}) ∅ X)
  = size X.
Proof.
  revert X.
  apply (set_fold_ind_L
           (λ (r : gset Z) (Y : gset Z),
              (∀ x, x ∈ r ↔ x - c ∈ Y) ∧ size r = size Y)).
  - split; [|done]. intros x. by rewrite !elem_of_empty.
  - intros a Y r Ha [Hmem Hsz]. split.
    + intros x. rewrite !elem_of_union, !elem_of_singleton, Hmem.
      split; intros [H | H]; first [by right | left; lia | by left | right; lia].
    + assert (a + c ∉ r) as Hnin.
      { rewrite Hmem. by replace (a + c - c) with a by lia. }
      rewrite size_union by (apply disjoint_singleton_r; done).
      rewrite size_union by (apply disjoint_singleton_l; done).
      rewrite !size_singleton. lia.
Qed.

End gep_facts.

(** X23: [getGepObjAddrs] returns the empty address set when [pointer] is
    not held as an address set in the variable store; for an offset whose
    two bounds are the same integer it returns the base addresses each
    shifted by it, as many as there were; for every other offset
    (unbounded on a side, a range, or bottom) it returns the base set
    unchanged. *)
Theorem getGepObjAddrs_spec (self : AbstractState AbstractValue) (pointer : Z)
    (offset : IntervalValue) :
  (AbstractState.inVarToAddrsTable self pointer = false →
   AbstractState.getGepObjAddrs self pointer offset = Address ∅) ∧
  (∀ (base : AddressValue) (c : Z),
     AbstractState._varToAbsVal self !! pointer = Some (AddressV base) →
     IntervalValue._lb offset = Some c → IntervalValue._ub offset = Some c →
     (∀ x, x ∈ AddressValue.get_addrs
                 (AbstractState.getGepObjAddrs self pointer offset)
           ↔ x - c ∈ AddressValue.get_addrs base) ∧
     size (AddressValue.get_addrs
             (AbstractState.getGepObjAddrs self pointer offset))
     = size (AddressValue.get_addrs base)) ∧
  (∀ base : AddressValue,
     AbstractState._varToAbsVal self !! pointer = Some (AddressV base) →
     IntervalValue._lb offset ≠ IntervalValue._ub offset ∨
     IntervalValue._lb offset = None →
     AbstractState.getGepObjAddrs self pointer offset
     = Address (AddressValue.get_addrs base)).
Proof.
  unfold AbstractState.getGepObjAddrs. split; [|split].
  - by intros ->.
  - intros base c Hp Hl Hu.
    unfold AbstractState.inVarToAddrsTable. rewrite Hp, Hl, Hu. simpl.
    rewrite Z.eqb_refl. simpl. apply shift_loop.
  - intros base Hp Hoff.
    unfold AbstractState.inVarToAddrsTable. rewrite Hp. simpl.
    destruct (IntervalValue._lb offset) as [lb|],
             (IntervalValue._ub offset) as [ub|]; try done.
    destruct (Z.eqb_spec lb ub) as [-> | Hne]; [|done].
    by destruct Hoff.
Qed.

Lemma getGepObjAddrs_spec_witness :
  AddressValue.get_addrs
    (AbstractState.getGepObjAddrs
       (State {[ 1 := AbstractValue.createAddress {[ 10; 20 ]} ]} ∅) 1
       (Interval (Some 5) (Some 5)))
  = {[ 15; 25 ]} ∧
  AbstractState.getGepObjAddrs
    (State {[ 1 := AbstractValue.createAddress {[ 10; 20 ]} ]} ∅) 1
    (Interval (Some 0) (Some 10))
  = Address {[ 10; 20 ]} ∧
  AbstractState.getGepObjAddrs
    (State {[ 1 := AbstractValue.createAddress {[ 10; 20 ]} ]} ∅) 2
    (Interval (Some 5) (Some 5))
  = Address ∅.
Proof.
  destruct (getGepObjAddrs_spec
              (State {[ 1 := AbstractValue.createAddress {[ 10; 20 ]} ]} ∅) 1
              (Interval (Some 5) (Some 5))) as (_ & Hconst & _).
  destruct (Hconst (Address {[ 10; 20 ]}) 5 eq_refl eq_refl eq_refl) as [Hmem _].
  split; [|split].
  - apply set_eq. intros x. rewrite Hmem. simpl.
    rewrite !elem_of_union, !elem_of_singleton. lia.
  - assert (IntervalValue._lb (Interval (Some 0) (Some 10))
            ≠ IntervalValue._ub (Interval (Some 0) (Some 10))) as Hrange
      by (simpl; discriminate).
    exact (proj2 (proj2 (getGepObjAddrs_spec
             (State {[ 1 := AbstractValue.createAddress {[ 10; 20 ]} ]} ∅) 1
             (Interval (Some 0) (Some 10)))) (Address {[ 10; 20 ]})
             eq_refl (or_introl Hrange)).
  - apply (proj1 (getGepObjAddrs_spec
             (State {[ 1 := AbstractValue.createAddress {[ 10; 20 ]} ]} ∅) 2
             (Interval (Some 5) (Some 5)))).
    reflexivity.
Defined.

(** ** Round trips through the stores *)

(** X24: a value stored through a virtual address that does not decode
    to the null object is what [load] through the same address returns,
    without any allocation; [load] through an address that decodes to
    another object, and [__getitem__], answer as before the store. *)
Theorem store_load_round_trip (self : AbstractState Obj.ref) (addr : Z)
    (val : Obj.ref) (h : Obj.heap) :
  AddressValue.isVirtualMemAddress addr = true →
  AddressValue.getInternalID addr ≠ 0 →
  ∃ self',
    AbstractState.store self addr val = Ok self' ∧
    Obj.load self' addr h = (Ok val, h) ∧
    (∀ addr',
       AddressValue.getInternalID addr' ≠ AddressValue.getInternalID addr →
       Obj.load self' addr' h = Obj.load self addr' h) ∧
    (∀ var_id, Obj.getitem self' var_id h = Obj.getitem self var_id h).
Proof.
  intros Hvirt Hne. unfold AbstractState.store. rewrite Hvirt. simpl.
  destruct (Z.eqb_spec (AddressValue.getInternalID addr) 0) as [|_]; [done|].
  eexists. split; [done|]. split; [|split].
  - unfold Obj.load. rewrite Hvirt. simpl. by rewrite lookup_insert_eq.
  - intros addr' Hother. unfold Obj.load. simpl.
    by rewrite lookup_insert_ne.
  - done.
Qed.

Lemma store_load_round_trip_witness :
  ∃ self',
    AbstractState.store shared_state (AddressValue.getVirtualMemAddress 123) 0%nat
    = Ok self' ∧
    Obj.load self' (AddressValue.getVirtualMemAddress 123) shared_heap
    = (Ok 0%nat, shared_heap).
Proof.
  destruct (store_load_round_trip shared_state
              (AddressValue.getVirtualMemAddress 123) 0%nat shared_heap)
    as (self' & Hst & Hld & _).
  - reflexivity.
  - vm_compute. discriminate.
  - exists self'. split; [exact Hst | exact Hld].
Defined.

(** X25: [loadValue] after [storeValue] for the same variable returns the
    stored reference; [loadValue] for another variable and [load] answer
    as before. *)
Theorem storeValue_loadValue_round_trip (self : AbstractState Obj.ref)
    (var_id : Z) (val : Obj.ref) (h : Obj.heap) :
  (Obj.loadValue (AbstractState.storeValue self var_id val) var_id h).1 = val ∧
  (∀ var_id', var_id' ≠ var_id →
     Obj.loadValue (AbstractState.storeValue self var_id val) var_id' h
     = Obj.loadValue self var_id' h) ∧
  (∀ addr, Obj.load (AbstractState.storeValue self var_id val) addr h
           = Obj.load self addr h).
Proof.
  unfold Obj.loadValue, Obj.getitem, AbstractState.storeValue. simpl.
  split; [|split].
  - destruct (Obj.createInterval None None h). simpl.
    by rewrite lookup_insert_eq.
  - intros var_id' Hne. by rewrite lookup_insert_ne.
  - done.
Qed.

(** ** bottom() and top() on a readable store *)

Section force_facts.
Import Obj.
Variables (lb ub : option Z) (set_to : ref → heap → option heap).
Hypothesis set_to_eq :
  ∀ i h, set_to i h = match h !! i with
                      | Some (IntervalObj _ _) => Some (<[i := IntervalObj lb ub]> h)
                      | _ => None
                      end.
Variable h : heap.

(** The loop of [bottom] and [top] over the entries [m]: it keeps every
    object that is not an [IntervalValue] instance, leaves an
    [IntervalValue] instance as it was or with the new bounds, and gives
    the new bounds to the interval of every interval value of [m]. *)
Lemma force_loop (m : gmap Z ref) :
  (∀ key r, m !! key = Some r → is_Some (read_value h r)) →
  ∃ h',
    map_fold (force_key set_to) (Some h) m = Some h' ∧
    length h' = length h ∧
    (∀ r o, h !! r = Some o → (∀ l u, o ≠ IntervalObj l u) → h' !! r = Some o) ∧
    (∀ i l u, h !! i = Some (IntervalObj l u) →
              h' !! i = Some (IntervalObj l u) ∨ h' !! i = Some (IntervalObj lb ub)) ∧
    (∀ key r i a, m !! key = Some r →
                  h !! r = Some (ValueObj (Some INTERVAL) (Some i) a) →
                  h' !! i = Some (IntervalObj lb ub)).
Proof.
  induction m as [|k r m Hk Hfirst IH] using map_first_key_ind.
  - intros _. exists h. rewrite map_fold_empty.
    split; [done|]. split; [done|]. split; [done|]. split; [eauto|].
    intros key r i a Hm. by rewrite lookup_empty in Hm.
  - intros Hread.
    destruct IH as (h1 & Hfold & Hlen & Hkeep & Hint & Hforced).
    { intros key r' Hm. apply (Hread key).
      rewrite lookup_insert_ne; [done|]. intros ->. congruence. }
    rewrite map_fold_insert_first_key by done. rewrite Hfold.
    destruct (Hread k r (lookup_insert_eq _ _ _)) as [v Hv].
    unfold read_value in Hv. unfold force_key. simpl.
    destruct (h !! r) as [o|] eqn:Hr; [|done]. simpl in Hv.
    rewrite (Hkeep r o Hr) by (by destruct o).
    simpl.
    destruct o as [| |[[]|] [i|] [a|]]; try done.
    + (* an interval value *)
      destruct (h !! i) as [[l u| |]|] eqn:Hi; try done.
      assert (∃ l' u', h1 !! i = Some (IntervalObj l' u')) as (l' & u' & Hi1).
      { destruct (Hint i l u Hi); eauto. }
      rewrite set_to_eq, Hi1.
      assert (i < length h1)%nat as Hlt by (by eapply lookup_lt_Some).
      eexists. split; [done|].
      split; [by rewrite length_insert|]. split; [|split].
      * intros r0 o Hr0 Hno. rewrite list_lookup_insert_ne; [by apply Hkeep|].
        intros <-. rewrite Hi in Hr0. injection Hr0 as <-. by eapply Hno.
      * intros i0 l0 u0 Hi0. destruct (decide (i0 = i)) as [-> | Hne].
        -- right. by rewrite list_lookup_insert_eq.
        -- rewrite list_lookup_insert_ne by done. by apply Hint.
      * intros key r0 i0 a0 Hm Hr0.
        destruct (decide (i0 = i)) as [-> | Hne];
          [by rewrite list_lookup_insert_eq|].
        rewrite list_lookup_insert_ne by done.
        destruct (decide (key = k)) as [-> | Hkey].
        -- rewrite lookup_insert_eq in Hm. injection Hm as <-. congruence.
        -- rewrite lookup_insert_ne in Hm by done. by eapply Hforced.
    + (* an interval value, [_address] unset *)
      destruct (h !! i) as [[l u| |]|] eqn:Hi; try done.
      assert (∃ l' u', h1 !! i = Some (IntervalObj l' u')) as (l' & u' & Hi1).
      { destruct (Hint i l u Hi); eauto. }
      rewrite set_to_eq, Hi1.
      assert (i < length h1)%nat as Hlt by (by eapply lookup_lt_Some).
      eexists. split; [done|].
      split; [by rewrite length_insert|]. split; [|split].
      * intros r0 o Hr0 Hno. rewrite list_lookup_insert_ne; [by apply Hkeep|].
        intros <-. rewrite Hi in Hr0. injection Hr0 as <-. by eapply Hno.
      * intros i0 l0 u0 Hi0. destruct (decide (i0 = i)) as [-> | Hne].
        -- right. by rewrite list_lookup_insert_eq.
        -- rewrite list_lookup_insert_ne by done. by apply Hint.
      * intros key r0 i0 a0 Hm Hr0.
        destruct (decide (i0 = i)) as [-> | Hne];
          [by rewrite list_lookup_insert_eq|].
        rewrite list_lookup_insert_ne by done.
        destruct (decide (key = k)) as [-> | Hkey].
        -- rewrite lookup_insert_eq in Hm. injection Hm as <-. congruence.
        -- rewrite lookup_insert_ne in Hm by done. by eapply Hforced.
    + (* an address value *)
      exists h1. split; [done|]. split; [done|]. split; [done|].
      split; [done|].
      intros key r0 i0 a0 Hm Hr0.
      destruct (decide (key = k)) as [-> | Hkey].
      * rewrite lookup_insert_eq in Hm. injection Hm as <-. congruence.
      * rewrite lookup_insert_ne in Hm by done. by eapply Hforced.
    + exists h1. split; [done|]. split; [done|]. split; [done|].
      split; [done|].
      intros key r0 i0 a0 Hm Hr0.
      destruct (decide (key = k)) as [-> | Hkey].
      * rewrite lookup_insert_eq in Hm. injection Hm as <-. congruence.
      * rewrite lookup_insert_ne in Hm by done. by eapply Hforced.
Qed.

(** The state the loop leaves, read through the entries of the variable
    store. *)
Lemma force_read (s : AbstractState ref) :
  Obj.var_readable h s →
  ∃ h',
    map_fold (force_key set_to) (Some h) (AbstractState._varToAbsVal s) = Some h' ∧
    length h' = length h ∧
    ∀ key r v,
      AbstractState._varToAbsVal s !! key = Some r →
      read_value h r = Some v →
      read_value h' r
      = Some match v with
             | IntervalV _ => IntervalV (Interval lb ub)
             | AddressV a => AddressV a
             end.
Proof.
  intros Hread.
  destruct (force_loop _ Hread) as (h' & Hfold & Hlen & Hkeep & _ & Hforced).
  exists h'. split; [done|]. split; [done|].
  intros key r v Hk Hv. unfold read_value in *.
  destruct (h !! r) as [o|] eqn:Hr; [|done]. simpl in Hv.
  rewrite (Hkeep r o Hr) by (by destruct o). simpl.
  destruct o as [| |[[]|] [i|] [a|]]; try done.
  - destruct (h !! i) as [[l u| |]|] eqn:Hi; try done. simplify_eq.
    by rewrite (Hforced key r i _ Hk Hr).
  - destruct (h !! i) as [[l u| |]|] eqn:Hi; try done. simplify_eq.
    by rewrite (Hforced key r i _ Hk Hr).
  - destruct (h !! a) as [[|addrs|]|] eqn:Ha; try done. simplify_eq.
    by rewrite (Hkeep a _ Ha).
  - destruct (h !! a) as [[|addrs|]|] eqn:Ha; try done. simplify_eq.
    by rewrite (Hkeep a _ Ha).
Qed.

End force_facts.

Lemma var_readable_shared : Obj.var_readable shared_heap shared_state.
Proof.
  intros key r Hk.
  change (AbstractState._varToAbsVal shared_state)
    with (<[ 1 := 0%nat ]> ({[ 2 := 2%nat ]} : gmap Z nat)) in Hk.
  destruct (decide (key = 1)) as [-> | H1].
  - rewrite lookup_insert_eq in Hk. injection Hk as <-. by eexists.
  - rewrite lookup_insert_ne in Hk by done.
    destruct (decide (key = 2)) as [-> | H2].
    + rewrite lookup_singleton_eq in Hk. injection Hk as <-. by eexists.
    + by rewrite lookup_singleton_ne in Hk.
Qed.

(** X26: on a store where every entry of the variable store can be read,
    [bottom()] ([top()]) returns normally a state holding the receiver's
    references, allocates nothing, and afterwards every entry of the
    variable store that was an interval reads as bottom (top) and every
    entry that was an address set reads as the same address set. *)
Theorem bottom_top_on_readable_store (s : AbstractState Obj.ref) (h : Obj.heap) :
  Obj.var_readable h s →
  (∃ h',
     Obj.bottom s h = Some (s, h') ∧ length h' = length h ∧
     ∀ key r v,
       AbstractState._varToAbsVal s !! key = Some r →
       Obj.read_value h r = Some v →
       Obj.read_value h' r
       = Some match v with
              | IntervalV _ => IntervalV IntervalValue.bottom
              | AddressV a => AddressV a
              end) ∧
  (∃ h',
     Obj.top s h = Some (s, h') ∧ length h' = length h ∧
     ∀ key r v,
       AbstractState._varToAbsVal s !! key = Some r →
       Obj.read_value h r = Some v →
       Obj.read_value h' r
       = Some match v with
              | IntervalV _ => IntervalV IntervalValue.top
              | AddressV a => AddressV a
              end).
Proof.
  intros Hread. split.
  - destruct (force_read (Some 1) (Some 0) Obj.set_to_bottom (λ _ _, eq_refl)
                h s Hread) as (h' & Hfold & Hlen & Hv).
    exists h'. unfold Obj.bottom. simpl. rewrite Hfold. simpl.
    split; [by destruct s|]. split; [done|]. exact Hv.
  - destruct (force_read None None Obj.set_to_top (λ _ _, eq_refl)
                h s Hread) as (h' & Hfold & Hlen & Hv).
    exists h'. unfold Obj.top. simpl. rewrite Hfold. simpl.
    split; [by destruct s|]. split; [done|]. exact Hv.
Qed.

Lemma bottom_top_on_readable_store_witness :
  ∃ h',
    Obj.bottom shared_state shared_heap = Some (shared_state, h') ∧
    Obj.read_value h' 0%nat = Some (IntervalV IntervalValue.bottom) ∧
    Obj.read_value h' 2%nat = Some (AbstractValue.createAddress {[ 3; 4 ]}).
Proof.
  destruct (proj1 (bottom_top_on_readable_store shared_state shared_heap
                     var_readable_shared)) as (h' & Hb & _ & Hv).
  exists h'. split; [exact Hb|]. split.
  - apply (Hv 1 0%nat (iv 1 5)); reflexivity.
  - apply (Hv 2 2%nat (AbstractValue.createAddress {[ 3; 4 ]})); reflexivity.
Defined.


(** * States that may hold instances without a tag *)

(** ** Loops *)

Section loops.
Context {V : Type}.

(** A loop over a set of keys that writes, for each key, the entry [g]
    gives for it (or nothing) into an empty dictionary. *)
Lemma set_fold_writes (g : Z → option V)
    (f : Z → gmap Z V → gmap Z V) (X : gset Z) :
  (∀ key d, f key d = match g key with
                      | Some v => <[key := v]> d
                      | None => d
                      end) →
  ∀ key, set_fold f ∅ X !! key = if decide (key ∈ X) then g key else None.
Proof.
  intros Hf. revert X.
  apply (set_fold_ind_L
           (λ (d : gmap Z V) (Y : gset Z),
              ∀ key, d !! key = if decide (key ∈ Y) then g key else None)).
  - intros key. rewrite lookup_empty. by case_decide.
  - intros x Y d Hx IH key. rewrite Hf.
    destruct (decide (key = x)) as [-> | Hne].
    + rewrite decide_True
        by (apply elem_of_union; left; by apply elem_of_singleton).
      destruct (g x) eqn:Hg.
      * by rewrite lookup_insert_eq.
      * rewrite IH. by rewrite decide_False.
    + assert (d !! key = (if decide (key ∈ {[x]} ∪ Y) then g key else None))
        as Hd.
      { rewrite IH.
        destruct (decide (key ∈ Y)) as [HY | HY],
                 (decide (key ∈ {[x]} ∪ Y)) as [HxY | HxY];
          [done | | | done].
        - exfalso. apply HxY, elem_of_union. by right.
        - exfalso. apply elem_of_union in HxY as [Hk | Hk]; [|done].
          by apply elem_of_singleton in Hk. }
      destruct (g x); [by rewrite lookup_insert_ne|done].
Qed.

(** A loop that returns [False] at the first entry failing [test], and
    [True] at its end. *)
Lemma map_fold_conj (test : Z → V → bool) (d : gmap Z V) :
  map_fold (λ key value acc, acc && test key value) true d = true
  ↔ ∀ key value, d !! key = Some value → test key value = true.
Proof.
  induction d as [|i x m Hi Hfirst IH] using map_first_key_ind.
  - rewrite map_fold_empty. split; [|done].
    intros _ key value H. by rewrite lookup_empty in H.
  - rewrite map_fold_insert_first_key by done.
    rewrite andb_true_iff, IH. split.
    + intros [Hm Hx] key value Hk.
      destruct (decide (key = i)) as [-> | Hne].
      * rewrite lookup_insert_eq in Hk. by simplify_eq.
      * rewrite lookup_insert_ne in Hk by done. by apply Hm.
    + intros H. split.
      * intros key value Hk. apply H.
        rewrite lookup_insert_ne; [done|]. intros ->. congruence.
      * apply H. apply lookup_insert_eq.
Qed.

(** The same loop when [test] may raise: [f] is the body, which returns
    [False] once an iteration has, and hands on an exception. *)
Section checked.
Variables (test : Z → V → result bool)
          (f : Z → V → result bool → result bool).
Hypothesis f_eq : ∀ key value acc,
  f key value acc = (do b <- acc; if b : bool then test key value else Ok false).

Lemma map_fold_checked_true (d : gmap Z V) :
  map_fold f (Ok true) d = Ok true
  ↔ ∀ key value, d !! key = Some value → test key value = Ok true.
Proof.
  induction d as [|i x m Hi Hfirst IH] using map_first_key_ind.
  - rewrite map_fold_empty. split; [|done].
    intros _ key value H. by rewrite lookup_empty in H.
  - rewrite map_fold_insert_first_key by done. rewrite f_eq.
    split.
    + intros H.
      destruct (map_fold f (Ok true) m) as [[]|e] eqn:Hm;
        simpl in H; try done.
      intros key value Hk. destruct (decide (key = i)) as [-> | Hne].
      * rewrite lookup_insert_eq in Hk. by simplify_eq.
      * rewrite lookup_insert_ne in Hk by done. by apply IH.
    + intros H.
      assert (map_fold f (Ok true) m = Ok true) as ->.
      { apply IH. intros key value Hk. apply H.
        rewrite lookup_insert_ne; [done|]. intros ->. congruence. }
      simpl. apply H. apply lookup_insert_eq.
Qed.

Lemma map_fold_checked_returns (d : gmap Z V) :
  (∀ key value, d !! key = Some value → ∃ b, test key value = Ok b) →
  ∃ b, map_fold f (Ok true) d = Ok b.
Proof.
  induction d as [|i x m Hi Hfirst IH] using map_first_key_ind.
  - intros _. exists true. by rewrite map_fold_empty.
  - intros H. rewrite map_fold_insert_first_key by done. rewrite f_eq.
    destruct IH as [b ->].
    { intros key value Hk. apply (H key).
      rewrite lookup_insert_ne; [done|]. intros ->. congruence. }
    simpl. destruct b; [|by exists false].
    apply (H i). apply lookup_insert_eq.
Qed.

Lemma map_fold_checked_true_or_raises (e : exn) (d : gmap Z V) :
  (∀ key value, d !! key = Some value →
                test key value = Ok true ∨ test key value = Raise e) →
  map_fold f (Ok true) d = Ok true ∨ map_fold f (Ok true) d = Raise e.
Proof.
  induction d as [|i x m Hi Hfirst IH] using map_first_key_ind.
  - intros _. left. by rewrite map_fold_empty.
  - intros Hall. rewrite map_fold_insert_first_key by done. rewrite f_eq.
    destruct IH as [-> | ->].
    { intros k v Hm. apply (Hall k).
      rewrite lookup_insert_ne; [done|]. intros ->. congruence. }
    + simpl. apply (Hall i). apply lookup_insert_eq.
    + by right.
Qed.

(** When every [test] answers [True] or raises [e], and one raises, the
    loop raises [e], in whatever order it visits the entries. *)
Lemma map_fold_checked_raises (e : exn) (d : gmap Z V) :
  (∀ key value, d !! key = Some value →
                test key value = Ok true ∨ test key value = Raise e) →
  (∃ key value, d !! key = Some value ∧ test key value = Raise e) →
  map_fold f (Ok true) d = Raise e.
Proof.
  intros Hall (key & value & Hk & Hraise).
  destruct (map_fold_checked_true_or_raises e d Hall) as [Htrue | ?];
    [|done].
  rewrite map_fold_checked_true in Htrue.
  rewrite (Htrue key value Hk) in Hraise. discriminate Hraise.
Qed.

End checked.

End loops.


(** ** The merges, key by key *)

Section raw_merges.
Implicit Types self other d : gmap Z RawValue.

Lemma raw_widening_dict_lookup self other key :
  RawState.widening_dict self other !! key
  = RawState.entry_widening (self !! key) (other !! key).
Proof.
  unfold RawState.widening_dict.
  rewrite (set_fold_writes
             (λ k, RawState.entry_widening (self !! k) (other !! k))).
  - case_decide as Hin; [done|].
    rewrite elem_of_union, !elem_of_dom in Hin.
    destruct (self !! key) eqn:Hs; [exfalso; eauto|].
    destruct (other !! key) eqn:Ho; [exfalso; eauto|]. done.
  - intros k d. unfold RawState.widening_key, RawState.entry_widening.
    destruct (self !! k) as [[[?|?]|]|], (other !! k) as [[[?|?]|]|]; done.
Qed.

(** The first loop of [meetWith], started on any dictionary [d0] and run
    over the entries of [m]. *)
Lemma raw_meetWith_loop other (d0 m : gmap Z RawValue) :
  (∀ key sv, m !! key = Some sv → d0 !! key = Some sv) →
  ∀ key,
    (map_fold (RawState.meetWith_key other) (d0, []) m).1 !! key
    = match m !! key with
      | Some sv => RawState.entry_meet_written (Some sv) (other !! key)
      | None => d0 !! key
      end ∧
    (key ∈ (map_fold (RawState.meetWith_key other) (d0, []) m).2
     ↔ RawState.entry_meet_removed (m !! key) (other !! key) = true).
Proof.
  induction m as [|i x m Hi Hfirst IH] using map_first_key_ind.
  - intros _ key. rewrite map_fold_empty, lookup_empty. simpl.
    split; [done|]. rewrite elem_of_nil. split; [done|discriminate].
  - intros Hd0 key.
    rewrite map_fold_insert_first_key by done.
    assert (∀ key sv, m !! key = Some sv → d0 !! key = Some sv) as Hd0'.
    { intros k sv Hk. apply Hd0. rewrite lookup_insert_ne; [done|].
      intros ->. congruence. }
    specialize (IH Hd0').
    destruct (map_fold (RawState.meetWith_key other) (d0, []) m)
      as [d ks] eqn:Hfold.
    simpl in IH.
    assert (d !! i = Some x) as Hdi.
    { destruct (IH i) as [-> _]. rewrite Hi. apply Hd0.
      apply lookup_insert_eq. }
    assert (∀ l, key ∈ l ++ [i] ↔ key ∈ l ∨ key = i) as Happ.
    { intros l. by rewrite elem_of_app, list_elem_of_singleton. }
    destruct (decide (key = i)) as [-> | Hne].
    + rewrite lookup_insert_eq.
      destruct (IH i) as [_ Hks]. rewrite Hi in Hks. simpl in Hks.
      assert (i ∉ ks) as Hnin.
      { intros Hin. apply Hks in Hin. by destruct (other !! i). }
      unfold RawState.meetWith_key.
      destruct (other !! i) as [ov|] eqn:Ho.
      * destruct x as [[si|sa]|], ov as [[oi|oa]|]; simpl;
          rewrite ?lookup_insert_eq; (split; [done|]);
          repeat case_match; rewrite ?Happ; try tauto;
          split; first [done | discriminate | tauto].
      * destruct x as [[?|?]|]; simpl; (split; [done|]);
          rewrite Happ; tauto.
    + rewrite lookup_insert_ne by done.
      destruct (IH key) as [Hd Hks].
      unfold RawState.meetWith_key.
      destruct (other !! i) as [ov|] eqn:Ho.
      * destruct x as [[si|sa]|], ov as [[oi|oa]|]; simpl;
          rewrite ?lookup_insert_ne by done; (split; [done|]);
          try done;
          repeat case_match; rewrite ?Happ; try done; rewrite <- Hks; tauto.
      * simpl. split; [done|]. rewrite Happ, <- Hks. tauto.
Qed.

Lemma raw_lookup_foldl_delete (keys_to_remove : list Z) d key :
  foldl (λ d key, delete key d) d keys_to_remove !! key
  = if decide (key ∈ keys_to_remove) then None else d !! key.
Proof.
  revert d. induction keys_to_remove as [|k ks IH]; intros d; simpl.
  - destruct (decide (key ∈ [])) as [Hin | _]; [|done].
    by apply elem_of_nil in Hin.
  - rewrite IH.
    destruct (decide (key ∈ ks)) as [Hin | Hnin],
             (decide (key ∈ k :: ks)) as [Hin' | Hnin']; try done.
    + exfalso. apply Hnin'. by right.
    + apply elem_of_cons in Hin' as [-> | Hin']; [|done].
      apply lookup_delete_eq.
    + apply lookup_delete_ne. intros ->. apply Hnin'. left.
Qed.

Lemma raw_meetWith_dict_lookup self other key :
  RawState.meetWith_dict self other !! key
  = RawState.entry_meet (self !! key) (other !! key).
Proof.
  unfold RawState.meetWith_dict.
  pose proof (raw_meetWith_loop other self self (λ _ _ H, H) key) as [Hd Hks].
  destruct (map_fold (RawState.meetWith_key other) (self, []) self)
    as [d ks].
  simpl in *. rewrite raw_lookup_foldl_delete, Hd. unfold RawState.entry_meet.
  destruct (RawState.entry_meet_removed (self !! key) (other !! key)) eqn:Hrm.
  - by rewrite decide_True by (by apply Hks).
  - rewrite decide_False.
    + by destruct (self !! key).
    + intros Hin. apply Hks in Hin. congruence.
Qed.

End raw_merges.


Section raw_joinWith.
Implicit Types self other d : gmap Z RawValue.

Lemma raw_join_Ok (a b v : RawValue) :
  RawValue.join a b = Ok v →
  a ≠ Untagged ∧ b ≠ Untagged ∧ RawValue._type a = RawValue._type b ∧
  RawValue._type v = RawValue._type a.
Proof.
  destruct a as [[?|?]|], b as [[?|?]|]; simpl; intros; simplify_eq; done.
Qed.

Lemma raw_join_Raise (a b : RawValue) (e : exn) :
  RawValue.join a b = Raise e →
  e = ValueError ∧
  (b = Untagged ∨ RawValue._type a ≠ RawValue._type b).
Proof.
  destruct a as [[?|?]|], b as [[?|?]|]; simpl; intros; simplify_eq;
    split; first [done | by left | by right].
Qed.

Lemma raw_join_same (a b : RawValue) :
  b ≠ Untagged → RawValue._type a = RawValue._type b →
  ∃ v, RawValue.join a b = Ok v.
Proof.
  destruct a as [[?|?]|], b as [[?|?]|]; simpl; intros; simplify_eq; eauto.
Qed.

(** The loop of [joinWith] over [other]: it returns exactly when the two
    dictionaries are [joinable], and then leaves [entry_join] at every
    key; it raises [ValueError] for a key of both, and [AssertionError]
    for an instance without a tag that only [other] holds. *)
Lemma raw_joinWith_dict_spec self other :
  match RawState.joinWith_dict self other with
  | Ok d =>
      RawState.joinable self other ∧
      (∀ key, d !! key = RawState.entry_join (self !! key) (other !! key))
  | Raise e =>
      (e = ValueError ∨
       e = AssertionError ∧
       ∃ key, other !! key = Some Untagged ∧ self !! key = None) ∧
      ∃ key ov, other !! key = Some ov ∧
        (ov = Untagged ∨
         ∃ sv, self !! key = Some sv ∧ RawValue._type sv ≠ RawValue._type ov)
  end.
Proof.
  unfold RawState.joinWith_dict.
  induction other as [|i x m Hi Hfirst IH] using map_first_key_ind.
  - rewrite map_fold_empty. split.
    + intros key ov Ho. by rewrite lookup_empty in Ho.
    + intros key. rewrite lookup_empty. by destruct (self !! key).
  - rewrite map_fold_insert_first_key by done.
    destruct (map_fold RawState.joinWith_item (Ok self) m) as [d|e]; simpl.
    + destruct IH as [Hjoin Hd].
      assert (d !! i = self !! i) as Hdi.
      { rewrite Hd, Hi. by destruct (self !! i). }
      rewrite Hdi.
      destruct (self !! i) as [sv|] eqn:Hs.
      * destruct (RawValue.join sv x) as [v|e] eqn:Hj; simpl.
        -- apply raw_join_Ok in Hj as Hj'.
           destruct Hj' as (_ & Hx & Hty & _). split.
           ++ intros key ov Ho.
              destruct (decide (key = i)) as [-> | Hne].
              ** rewrite lookup_insert_eq in Ho. simplify_eq.
                 split; [done|]. intros sv' Hs'. by simplify_eq.
              ** rewrite lookup_insert_ne in Ho by done. by apply Hjoin.
           ++ intros key. destruct (decide (key = i)) as [-> | Hne].
              ** rewrite !lookup_insert_eq, Hs. simpl. by rewrite Hj.
              ** rewrite !lookup_insert_ne by done. apply Hd.
        -- apply raw_join_Raise in Hj as [-> Hbad]. split; [by left|].
           exists i, x. rewrite lookup_insert_eq. split; [done|].
           destruct Hbad as [-> | Hne]; [by left|]. right. eauto.
      * destruct x as [[i0|a0]|]; simpl.
        -- split.
           ++ intros key ov Ho.
              destruct (decide (key = i)) as [-> | Hne].
              ** rewrite lookup_insert_eq in Ho. simplify_eq.
                 split; [done|]. intros sv' Hs'. congruence.
              ** rewrite lookup_insert_ne in Ho by done. by apply Hjoin.
           ++ intros key. destruct (decide (key = i)) as [-> | Hne].
              ** by rewrite !lookup_insert_eq, Hs.
              ** rewrite !lookup_insert_ne by done. apply Hd.
        -- split.
           ++ intros key ov Ho.
              destruct (decide (key = i)) as [-> | Hne].
              ** rewrite lookup_insert_eq in Ho. simplify_eq.
                 split; [done|]. intros sv' Hs'. congruence.
              ** rewrite lookup_insert_ne in Ho by done. by apply Hjoin.
           ++ intros key. destruct (decide (key = i)) as [-> | Hne].
              ** by rewrite !lookup_insert_eq, Hs.
              ** rewrite !lookup_insert_ne by done. apply Hd.
        -- split.
           ++ right. split; [done|]. exists i.
              by rewrite lookup_insert_eq.
           ++ exists i, Untagged. rewrite lookup_insert_eq. split; [done|].
              by left.
    + destruct IH as [He (key & ov & Ho & Hbad)].
      assert (key ≠ i) as Hne by (intros ->; congruence).
      split.
      * destruct He as [-> | [-> (k & Hk & Hsk)]]; [by left|]. right.
        split; [done|]. exists k. split; [|done].
        rewrite lookup_insert_ne; [done|]. intros ->. congruence.
      * exists key, ov. by rewrite lookup_insert_ne.
Qed.

Lemma raw_joinable_iff self other :
  RawState.joinable self other ↔ ∃ d, RawState.joinWith_dict self other = Ok d.
Proof.
  pose proof (raw_joinWith_dict_spec self other) as H.
  destruct (RawState.joinWith_dict self other) as [d|e].
  - destruct H as [Hj _]. split; [eauto|]. intros _. exact Hj.
  - destruct H as (_ & key & ov & Ho & Hbad). split.
    + intros Hj. exfalso. destruct (Hj key ov Ho) as [Hov Hty].
      destruct Hbad as [-> | (sv & Hs & Hne)]; [done|].
      by apply Hne, Hty.
    + intros [d Hd]. discriminate Hd.
Qed.

Lemma raw_joinWith_dict_lookup self other d key :
  RawState.joinWith_dict self other = Ok d →
  d !! key = RawState.entry_join (self !! key) (other !! key).
Proof.
  intros Hd. pose proof (raw_joinWith_dict_spec self other) as H.
  rewrite Hd in H. apply H.
Qed.

Lemma raw_joinWith_dict_exn self other e :
  RawState.joinWith_dict self other = Raise e →
  (e = ValueError ∨ e = AssertionError) ∧
  (RawState.tagged other ∨ dom other ⊆ dom self → e = ValueError).
Proof.
  intros He. pose proof (raw_joinWith_dict_spec self other) as H.
  rewrite He in H. destruct H as [[-> | [-> (k & Hk & Hsk)]] _].
  - split; [by left | done].
  - split; [by right|]. intros [Ht | Hsub].
    + by destruct (Ht k).
    + assert (k ∈ dom self) as [? ?]%elem_of_dom; [|congruence].
      apply Hsub, elem_of_dom. eauto.
Qed.

End raw_joinWith.

(** ** equals and __ge__ *)

Section raw_order.
Implicit Types lhs rhs self other d : gmap Z RawValue.

Lemma raw_eq_true lhs rhs :
  RawState._eqVarToValMap lhs rhs = Ok true
  ↔ dom lhs = dom rhs ∧
    ∀ key lv rv, lhs !! key = Some lv → rhs !! key = Some rv →
                 RawValue.equals lv rv = Ok true.
Proof.
  unfold RawState._eqVarToValMap.
  destruct (Nat.eqb_spec (size lhs) (size rhs)) as [Hsz | Hsz]; simpl.
  - rewrite (map_fold_checked_true
               (λ key value, match rhs !! key with
                             | None => Ok false
                             | Some rv => RawValue.equals value rv
                             end)) by done.
    split.
    + intros H.
      assert (dom lhs ⊆ dom rhs) as Hsub.
      { intros key [lv Hl]%elem_of_dom. apply elem_of_dom.
        specialize (H key lv Hl). destruct (rhs !! key); [eauto|done]. }
      split.
      * apply set_subseteq_size_eq; [done|]. rewrite !size_dom. lia.
      * intros key lv rv Hl Hr. specialize (H key lv Hl). by rewrite Hr in H.
    + intros [Hdom H] key lv Hl.
      assert (key ∈ dom rhs) as [rv Hr]%elem_of_dom.
      { rewrite <- Hdom. apply elem_of_dom. eauto. }
      rewrite Hr. by eapply H.
  - split; [done|]. intros [Hdom _]. exfalso. apply Hsz.
    by rewrite <- !size_dom, Hdom.
Qed.

Lemma raw_equals_returns (a b : RawValue) :
  a ≠ Untagged ∨ b ≠ Untagged → ∃ r, RawValue.equals a b = Ok r.
Proof. destruct a, b; simpl; intros [?|?]; eauto; done. Qed.

Lemma raw_eq_returns lhs rhs :
  RawState.tagged lhs ∨ RawState.tagged rhs →
  ∃ b, RawState._eqVarToValMap lhs rhs = Ok b.
Proof.
  intros Ht. unfold RawState._eqVarToValMap.
  destruct (negb _); [by exists false|].
  apply (map_fold_checked_returns
           (λ key value, match rhs !! key with
                         | None => Ok false
                         | Some rv => RawValue.equals value rv
                         end)); [done|].
  intros key value Hk. destruct (rhs !! key) as [rv|] eqn:Hr; [|by eexists].
  apply raw_equals_returns. destruct Ht as [Ht | Ht].
  - left. intros ->. by destruct (Ht key).
  - right. intros ->. by destruct (Ht key).
Qed.

Lemma raw_equals_refl (a : RawValue) :
  RawValue.equals a a = match a with
                        | Tagged _ => Ok true
                        | Untagged => Raise AttributeError
                        end.
Proof. destruct a; simpl; [|done]. by rewrite value_equals_refl. Qed.

Lemma raw_eq_refl d :
  (RawState.tagged d → RawState._eqVarToValMap d d = Ok true) ∧
  (∀ key, d !! key = Some Untagged →
          RawState._eqVarToValMap d d = Raise AttributeError).
Proof.
  split.
  - intros Ht. apply raw_eq_true. split; [done|].
    intros key lv rv Hl Hr. simplify_eq. rewrite raw_equals_refl.
    destruct lv; [done|]. by destruct (Ht key).
  - intros key Hk. unfold RawState._eqVarToValMap.
    rewrite Nat.eqb_refl. simpl.
    apply (map_fold_checked_raises
             (λ key value, match d !! key with
                           | None => Ok false
                           | Some rv => RawValue.equals value rv
                           end)); [done| |].
    + intros k v Hv. rewrite Hv, raw_equals_refl. destruct v; eauto.
    + exists key, Untagged. split; [done|]. by rewrite Hk.
Qed.

Lemma raw_eq_refl_cases d :
  RawState._eqVarToValMap d d = Ok true ∨
  RawState._eqVarToValMap d d = Raise AttributeError.
Proof.
  unfold RawState._eqVarToValMap. rewrite Nat.eqb_refl. simpl.
  apply (map_fold_checked_true_or_raises
           (λ key value, match d !! key with
                         | None => Ok false
                         | Some rv => RawValue.equals value rv
                         end)); [done|].
  intros k v Hv. rewrite Hv, raw_equals_refl. destruct v; eauto.
Qed.

Lemma raw_equals_sym (a b : RawValue) : RawValue.equals a b = RawValue.equals b a.
Proof. destruct a, b; simpl; try done. by rewrite value_equals_sym. Qed.

Lemma raw_equals_trans (a b c : RawValue) :
  RawValue.equals a b = Ok true → RawValue.equals b c = Ok true →
  RawValue.equals a c = Ok true.
Proof.
  destruct a, b, c; simpl; try done. intros [= H1] [= H2]. f_equal.
  by eapply value_equals_trans.
Qed.

Lemma raw_eq_sym_true lhs rhs :
  RawState._eqVarToValMap lhs rhs = Ok true →
  RawState._eqVarToValMap rhs lhs = Ok true.
Proof.
  rewrite !raw_eq_true. intros [Hdom H]. split; [done|].
  intros key lv rv Hl Hr. rewrite raw_equals_sym. by eapply H.
Qed.

Lemma raw_eq_sym lhs rhs :
  RawState.tagged lhs ∨ RawState.tagged rhs →
  RawState._eqVarToValMap lhs rhs = RawState._eqVarToValMap rhs lhs.
Proof.
  intros Ht.
  destruct (raw_eq_returns lhs rhs Ht) as [b1 H1].
  destruct (raw_eq_returns rhs lhs) as [b2 H2]; [tauto|].
  rewrite H1, H2. destruct b1, b2; try done.
  - apply raw_eq_sym_true in H1. congruence.
  - apply raw_eq_sym_true in H2. congruence.
Qed.

Lemma raw_eq_trans d1 d2 d3 :
  RawState._eqVarToValMap d1 d2 = Ok true →
  RawState._eqVarToValMap d2 d3 = Ok true →
  RawState._eqVarToValMap d1 d3 = Ok true.
Proof.
  rewrite !raw_eq_true. intros [Hd12 H12] [Hd23 H23].
  split; [congruence|]. intros key v1 v3 H1 H3.
  assert (key ∈ dom d2) as [v2 H2]%elem_of_dom.
  { rewrite <- Hd12. apply elem_of_dom. eauto. }
  eapply raw_equals_trans; eauto.
Qed.

Lemma raw_ge_dict_spec self other :
  RawState.ge_dict self other = true
  ↔ ∀ key value, other !! key = Some value →
      ∃ self_val, self !! key = Some self_val ∧
                  RawState.ge_value self_val value = true.
Proof.
  unfold RawState.ge_dict, RawState.ge_item.
  rewrite (map_fold_conj
             (λ key value, match self !! key with
                           | None => false
                           | Some self_val => RawState.ge_value self_val value
                           end)).
  split.
  - intros H key value Hk. specialize (H key value Hk).
    destruct (self !! key); [eauto|done].
  - intros H key value Hk. destruct (H key value Hk) as (sv & -> & Hge). done.
Qed.

Lemma raw_ge_value_refl (v : RawValue) :
  RawState.ge_value v v = true
  ↔ v ≠ Untagged ∧
    ∀ i, v = Tagged (IntervalV i) → IntervalValue.is_bottom i = false.
Proof.
  destruct v as [[i|a]|]; simpl.
  - rewrite contain_refl_iff. split.
    + intros H. split; [done|]. by intros ? [= <-].
    + intros [_ H]. by apply H.
  - rewrite bool_decide_eq_true. split; [done|]. intros _. done.
  - split; [done|]. by intros [? _].
Qed.

Lemma raw_ge_value_trans (a b c : RawValue) :
  RawState.ge_value a b = true → RawState.ge_value b c = true →
  RawState.ge_value a c = true.
Proof.
  destruct a as [[?|?]|], b as [[?|?]|], c as [[?|?]|]; simpl; try done.
  - intros H1 H2. by eapply contain_trans.
  - rewrite !bool_decide_eq_true. intros H1 H2. by etrans.
Qed.

Lemma raw_ge_dict_refl d :
  RawState.ge_dict d d = true ↔ RawState.tagged d ∧ RawState.no_bottom d.
Proof.
  rewrite raw_ge_dict_spec. split.
  - intros H. split.
    + intros key Hk. destruct (H key _ Hk) as (sv & Hs & Hge).
      rewrite Hk in Hs. by simplify_eq.
    + intros key i Hk. destruct (H key _ Hk) as (sv & Hs & Hge).
      rewrite Hk in Hs. simplify_eq.
      by apply (proj1 (raw_ge_value_refl _) Hge).
  - intros [Ht Hnb] key value Hk. exists value. split; [done|].
    apply raw_ge_value_refl. split.
    + intros ->. by destruct (Ht key).
    + intros i ->. by eapply Hnb.
Qed.

Lemma raw_ge_dict_trans d1 d2 d3 :
  RawState.ge_dict d1 d2 = true → RawState.ge_dict d2 d3 = true →
  RawState.ge_dict d1 d3 = true.
Proof.
  rewrite !raw_ge_dict_spec. intros H12 H23 key value Hk.
  destruct (H23 key value Hk) as (v2 & H2 & Hge2).
  destruct (H12 key v2 H2) as (v1 & H1 & Hge1).
  exists v1. split; [done|]. by eapply raw_ge_value_trans.
Qed.

End raw_order.


(** ** The merges and the order *)

Section raw_merge_order.
Implicit Types self other d : gmap Z RawValue.

Lemma widening_idemp (a : IntervalValue) : IntervalValue.widening a a = a.
Proof. destruct a as [[al|] [au|]]; interval_auto. Qed.


Lemma raw_join_idemp (v : RawValue) :
  v ≠ Untagged → RawValue.join v v = Ok v.
Proof.
  destruct v as [[i|a]|]; simpl; [| |done]; intros _.
  - by rewrite join_idemp.
  - unfold AddressValue.join. destruct a as [s]. simpl.
    by rewrite (idemp_L (∪)).
Qed.


Lemma raw_joinWith_dict_ge_other self other d :
  RawState.joinWith_dict self other = Ok d →
  RawState.no_bottom other → RawState.ge_dict d other = true.
Proof.
  intros Hd Hnb. apply raw_ge_dict_spec. intros key ov Ho.
  assert (RawState.joinable self other) as Hj
    by (apply raw_joinable_iff; eauto).
  destruct (Hj key ov Ho) as [Hov Hty].
  rewrite (raw_joinWith_dict_lookup _ _ _ _ Hd), Ho.
  destruct (self !! key) as [sv|] eqn:Hs; simpl.
  - specialize (Hty sv eq_refl).
    destruct sv as [[si|sa]|], ov as [[oi|oa]|]; simpl in *; try done.
    + eexists. split; [done|]. simpl.
      apply join_upper. rewrite (Hnb key oi Ho). apply andb_false_r.
    + eexists. split; [done|]. simpl. apply bool_decide_eq_true.
      unfold AddressValue.get_addrs. simpl. apply union_subseteq_r.
  - exists ov. split; [done|]. apply raw_ge_value_refl. split; [done|].
    intros i ->. by eapply Hnb.
Qed.

Lemma raw_joinWith_dict_ge_self self other d :
  RawState.joinWith_dict self other = Ok d →
  RawState.tagged self → RawState.no_bottom self →
  RawState.ge_dict d self = true.
Proof.
  intros Hd Ht Hnb. apply raw_ge_dict_spec. intros key sv Hs.
  assert (RawState.joinable self other) as Hj
    by (apply raw_joinable_iff; eauto).
  rewrite (raw_joinWith_dict_lookup _ _ _ _ Hd), Hs.
  destruct (other !! key) as [ov|] eqn:Ho; simpl.
  - destruct (Hj key ov Ho) as [Hov Hty]. specialize (Hty sv Hs).
    destruct sv as [[si|sa]|], ov as [[oi|oa]|]; simpl in *; try done.
    + eexists. split; [done|]. simpl.
      apply join_upper. by rewrite (Hnb key si Hs).
    + eexists. split; [done|]. simpl. apply bool_decide_eq_true.
      unfold AddressValue.get_addrs. simpl. apply union_subseteq_l.
  - exists sv. split; [done|]. apply raw_ge_value_refl. split.
    + intros ->. by destruct (Ht key).
    + intros i ->. by eapply Hnb.
Qed.

Lemma raw_joinWith_dict_idemp d :
  RawState.tagged d → RawState.joinWith_dict d d = Ok d.
Proof.
  intros Ht.
  assert (RawState.joinable d d) as Hj.
  { intros key ov Ho. split.
    - intros ->. by destruct (Ht key).
    - intros sv Hs. by simplify_eq. }
  apply raw_joinable_iff in Hj as [d' Hd']. rewrite Hd'. f_equal.
  apply map_eq. intros key. rewrite (raw_joinWith_dict_lookup _ _ _ _ Hd').
  destruct (d !! key) as [v|] eqn:Hk; simpl; [|done].
  rewrite raw_join_idemp; [done|]. intros ->. by destruct (Ht key).
Qed.

(** On two dictionaries with the same keys the copy is never reached, so
    [ValueError] is the only exception. *)
Lemma raw_joinWith_dict_self d :
  (∃ d', RawState.joinWith_dict d d = Ok d') ∨
  RawState.joinWith_dict d d = Raise ValueError.
Proof.
  destruct (RawState.joinWith_dict d d) as [d'|e] eqn:He; [eauto|].
  right. f_equal. apply (raw_joinWith_dict_exn _ _ _ He). by right.
Qed.

Lemma raw_joinWith_dict_untagged d key :
  d !! key = Some Untagged →
  RawState.joinWith_dict d d = Raise ValueError.
Proof.
  intros Hk. destruct (raw_joinWith_dict_self d) as [[d' Hd'] | ?]; [|done].
  assert (RawState.joinable d d) as Hj by (apply raw_joinable_iff; eauto).
  by destruct (Hj key _ Hk) as [? _].
Qed.

Lemma raw_widening_dict_idemp d :
  RawState.tagged d → RawState.widening_dict d d = d.
Proof.
  intros Ht. apply map_eq. intros key. rewrite raw_widening_dict_lookup.
  destruct (d !! key) as [[[i|a]|]|] eqn:Hk; simpl; [| | |done].
  - by rewrite widening_idemp.
  - unfold AddressValue.join. destruct a as [s]. simpl.
    by rewrite (idemp_L (∪)).
  - by destruct (Ht key).
Qed.

Lemma raw_widening_dict_drop self other key sv ov :
  self !! key = Some sv → other !! key = Some ov →
  RawValue._type sv ≠ RawValue._type ov ∨ sv = Untagged →
  RawState.widening_dict self other !! key = None.
Proof.
  intros Hs Ho H. rewrite raw_widening_dict_lookup, Hs, Ho.
  destruct sv as [[?|?]|], ov as [[?|?]|]; simpl in *;
    first [done | by destruct H].
Qed.


Lemma raw_meetWith_dict_ge self other :
  RawState.tagged self → RawState.no_bottom self →
  RawState.ge_dict self (RawState.meetWith_dict self other) = true.
Proof.
  intros Ht Hs. apply raw_ge_dict_spec. intros key v.
  rewrite raw_meetWith_dict_lookup. unfold RawState.entry_meet.
  destruct (RawState.entry_meet_removed (self !! key) (other !! key)) eqn:Hrm;
    [done|].
  destruct (self !! key) as [sv|] eqn:Hk; [|done].
  intros Hw. exists sv. split; [done|].
  assert (sv ≠ Untagged) as Hsv by (intros ->; by destruct (Ht key)).
  assert (RawState.ge_value sv sv = true) as Hrefl.
  { apply raw_ge_value_refl. split; [done|]. intros i ->. by eapply Hs. }
  destruct sv as [[si|sa]|]; [| |done];
    destruct (other !! key) as [[[oi|oa]|]|]; simpl in *; simplify_eq;
    simpl; try done.
  - apply meet_lower. by eapply Hs.
  - apply bool_decide_eq_true. unfold AddressValue.get_addrs. simpl.
    apply intersection_subseteq_l.
Qed.

Lemma raw_meetWith_dict_dom self other :
  dom (RawState.meetWith_dict self other) ⊆ dom self ∩ dom other.
Proof.
  intros key [v Hv]%elem_of_dom. rewrite raw_meetWith_dict_lookup in Hv.
  apply elem_of_intersection. rewrite !elem_of_dom.
  unfold RawState.entry_meet in Hv.
  destruct (self !! key) as [[[?|?]|]|], (other !! key) as [[[?|?]|]|];
    simpl in *; try done; repeat case_match; try done; split; eauto.
Qed.

Lemma raw_meetWith_dict_no_bottom self other key ty sv ov v :
  self !! key = Some sv → other !! key = Some ov →
  RawValue._type sv = Some ty → RawValue._type ov = Some ty →
  RawState.meetWith_dict self other !! key = Some v →
  match v with
  | Tagged (IntervalV i) => IntervalValue.is_bottom i = false
  | Tagged (AddressV a) => AddressValue.get_addrs a ≠ ∅
  | Untagged => False
  end.
Proof.
  intros Hs Ho Hts Hto. rewrite raw_meetWith_dict_lookup, Hs, Ho.
  unfold RawState.entry_meet.
  destruct sv as [[si|sa]|], ov as [[oi|oa]|]; simpl in *; simplify_eq.
  - destruct (IntervalValue.is_bottom (IntervalValue.meet si oi)) eqn:Hb;
      [done|]. intros [= <-]. done.
  - case_bool_decide as Hb; [done|]. intros [= <-]. done.
Qed.

(** A key both hold, with different [_type]s or with no tag in the
    receiver, stays in the receiver as it was. *)
Lemma raw_meetWith_dict_keep self other key sv ov :
  self !! key = Some sv → other !! key = Some ov →
  RawValue._type sv ≠ RawValue._type ov ∨ sv = Untagged →
  RawState.meetWith_dict self other !! key = Some sv.
Proof.
  intros Hs Ho H. rewrite raw_meetWith_dict_lookup, Hs, Ho.
  destruct sv as [[?|?]|], ov as [[?|?]|]; simpl in *;
    first [done | by destruct H].
Qed.

End raw_merge_order.

(** ** Dictionaries of tagged instances *)

Section raw_conditions.
Implicit Types d : gmap Z RawValue.

Lemma tagged_fmap (m : gmap Z AbstractValue) : RawState.tagged (Tagged <$> m).
Proof. intros key. rewrite lookup_fmap. by destruct (m !! key). Qed.

Lemma raw_no_bottom_empty : RawState.no_bottom ∅.
Proof. intros key i H. by rewrite lookup_empty in H. Qed.

Lemma raw_no_bottom_insert d (key : Z) (v : RawValue) :
  (∀ i, v = Tagged (IntervalV i) → IntervalValue.is_bottom i = false) →
  RawState.no_bottom d → RawState.no_bottom (<[key := v]> d).
Proof.
  intros Hv Hd key' i Hk. destruct (decide (key' = key)) as [-> | Hne].
  - rewrite lookup_insert_eq in Hk. injection Hk as ->. by apply Hv.
  - rewrite lookup_insert_ne in Hk by done. by eapply Hd.
Qed.

Lemma joinable_empty d : RawState.joinable d ∅.
Proof. intros key ov H. by rewrite lookup_empty in H. Qed.

Lemma joinable_insert d1 d2 (key : Z) (v : AbstractValue) :
  (∀ sv, d1 !! key = Some sv →
         RawValue._type sv = Some (AbstractValue._type v)) →
  RawState.joinable d1 d2 →
  RawState.joinable d1 (<[key := Tagged v]> d2).
Proof.
  intros Hv Hd key' ov Hk. destruct (decide (key' = key)) as [-> | Hne].
  - rewrite lookup_insert_eq in Hk. injection Hk as <-. split; [done|].
    intros sv Hs. by apply Hv.
  - rewrite lookup_insert_ne in Hk by done. by apply Hd.
Qed.


End raw_conditions.

(** [state1] and [state2], with every instance tagged. *)
Lemma raw_state1_var :
  AbstractState._varToAbsVal (raw_state state1) = <[1 := Tagged (iv 1 5)]> ∅.
Proof. simpl. by rewrite map_fmap_singleton, insert_empty. Qed.

Lemma raw_state2_var :
  AbstractState._varToAbsVal (raw_state state2)
  = <[1 := Tagged (iv 3 10)]> (<[2 := Tagged (iv 15 20)]> ∅).
Proof. simpl. by rewrite fmap_insert, map_fmap_singleton, insert_empty. Qed.

Lemma raw_state_addr_empty :
  AbstractState._addrToAbsVal (raw_state state1) = ∅ ∧
  AbstractState._addrToAbsVal (raw_state state2) = ∅.
Proof. simpl. by rewrite fmap_empty. Qed.

Lemma no_bottom_raw_state1 :
  RawState.no_bottom (AbstractState._varToAbsVal (raw_state state1)) ∧
  RawState.no_bottom (AbstractState._addrToAbsVal (raw_state state1)).
Proof.
  rewrite raw_state1_var, (proj1 raw_state_addr_empty).
  split; [|apply raw_no_bottom_empty].
  apply raw_no_bottom_insert; [by intros i [= <-]|]. apply raw_no_bottom_empty.
Qed.

Lemma no_bottom_raw_state2 :
  RawState.no_bottom (AbstractState._varToAbsVal (raw_state state2)) ∧
  RawState.no_bottom (AbstractState._addrToAbsVal (raw_state state2)).
Proof.
  rewrite raw_state2_var, (proj2 raw_state_addr_empty).
  split; [|apply raw_no_bottom_empty].
  apply raw_no_bottom_insert; [by intros i [= <-]|].
  apply raw_no_bottom_insert; [by intros i [= <-]|]. apply raw_no_bottom_empty.
Qed.

Lemma joinable_raw_state1_state2 :
  RawState.joinable (AbstractState._varToAbsVal (raw_state state1))
                    (AbstractState._varToAbsVal (raw_state state2)) ∧
  RawState.joinable (AbstractState._addrToAbsVal (raw_state state1))
                    (AbstractState._addrToAbsVal (raw_state state2)).
Proof.
  rewrite raw_state1_var, raw_state2_var, (proj1 raw_state_addr_empty),
          (proj2 raw_state_addr_empty).
  split; [|apply joinable_empty].
  apply joinable_insert.
  { intros sv. rewrite lookup_insert_eq. by intros [= <-]. }
  apply joinable_insert; [|apply joinable_empty].
  intros sv. rewrite lookup_insert_ne by done. by rewrite lookup_empty.
Qed.

(** ** Instances with and without a tag: equals *)

(** X12: [AbstractValue.equals] answers [True] on an instance with a tag
    compared with itself, and raises [AttributeError] on two instances
    without a tag; it gives the same outcome in either order; its [True]
    answers are transitive; it is [False] across different [_type]s; and
    on address sets it is equality of the sets. *)
Theorem raw_value_equals :
  (∀ a : AbstractValue, RawValue.equals (Tagged a) (Tagged a) = Ok true) ∧
  RawValue.equals Untagged Untagged = Raise AttributeError ∧
  (∀ x y : RawValue, RawValue.equals x y = RawValue.equals y x) ∧
  (∀ x y z : RawValue,
     RawValue.equals x y = Ok true → RawValue.equals y z = Ok true →
     RawValue.equals x z = Ok true) ∧
  (∀ x y : RawValue,
     RawValue._type x ≠ RawValue._type y → RawValue.equals x y = Ok false) ∧
  (∀ sa sb : AddressValue,
     RawValue.equals (Tagged (AddressV sa)) (Tagged (AddressV sb)) = Ok true
     ↔ sa = sb).
Proof.
  split; [intros a; apply (raw_equals_refl (Tagged a))|].
  split; [done|]. split; [apply raw_equals_sym|].
  split; [apply raw_equals_trans|]. split.
  - intros [a|] [b|] Hne; simpl in *; try done. f_equal.
    destruct (AbstractValue.equals a b) eqn:He; [|done].
    apply value_equals_type in He. congruence.
  - intros sa sb. rewrite <- address_equals_eq. simpl.
    split; [by intros [= ->] | by intros ->].
Qed.

Lemma raw_value_equals_witness :
  RawValue.equals Untagged (Tagged (iv 1 5)) = Ok false.
Proof.
  apply (proj1 (proj2 (proj2 (proj2 (proj2 raw_value_equals))))).
  simpl. discriminate.
Defined.

(** X14: [equals] on states answers [True] exactly when the two states
    have the same keys in each store and [AbstractValue.equals] answers
    [True] key by key; its [True] answers are symmetric and transitive.
    Compared with a state all of whose instances have a tag it never
    raises and gives the same answer in either order, and such a state
    equals itself.  A state that holds an instance without a tag, in
    either store, raises [AttributeError] when compared with itself. *)
Theorem raw_state_equals :
  (∀ s o : AbstractState RawValue,
     RawState.equals s o = Ok true ↔
     (dom (AbstractState._varToAbsVal s) = dom (AbstractState._varToAbsVal o) ∧
      ∀ key sv ov, AbstractState._varToAbsVal s !! key = Some sv →
                   AbstractState._varToAbsVal o !! key = Some ov →
                   RawValue.equals sv ov = Ok true) ∧
     (dom (AbstractState._addrToAbsVal s) = dom (AbstractState._addrToAbsVal o) ∧
      ∀ key sv ov, AbstractState._addrToAbsVal s !! key = Some sv →
                   AbstractState._addrToAbsVal o !! key = Some ov →
                   RawValue.equals sv ov = Ok true)) ∧
  (∀ s o : AbstractState RawValue,
     RawState.equals s o = Ok true → RawState.equals o s = Ok true) ∧
  (∀ s1 s2 s3 : AbstractState RawValue,
     RawState.equals s1 s2 = Ok true → RawState.equals s2 s3 = Ok true →
     RawState.equals s1 s3 = Ok true) ∧
  (∀ s o : AbstractState RawValue,
     RawState.tagged (AbstractState._varToAbsVal s) →
     RawState.tagged (AbstractState._addrToAbsVal s) →
     ∃ b, RawState.equals s o = Ok b ∧ RawState.equals o s = Ok b) ∧
  (∀ s : AbstractState RawValue,
     RawState.tagged (AbstractState._varToAbsVal s) →
     RawState.tagged (AbstractState._addrToAbsVal s) →
     RawState.equals s s = Ok true) ∧
  (∀ (s : AbstractState RawValue) (key : Z),
     AbstractState._varToAbsVal s !! key = Some Untagged ∨
     AbstractState._addrToAbsVal s !! key = Some Untagged →
     RawState.equals s s = Raise AttributeError).
Proof.
  assert (∀ s o : AbstractState RawValue,
            RawState.equals s o = Ok true ↔
            RawState._eqVarToValMap (AbstractState._varToAbsVal s)
                                    (AbstractState._varToAbsVal o) = Ok true ∧
            RawState._eqVarToValMap (AbstractState._addrToAbsVal s)
                                    (AbstractState._addrToAbsVal o) = Ok true)
    as Hand.
  { intros s o. unfold RawState.equals.
    destruct (RawState._eqVarToValMap (AbstractState._varToAbsVal s)
                (AbstractState._varToAbsVal o)) as [[]|e]; simpl;
      split; first [done | by intros [? ?] | by intros ?; split ]. }
  split; [|split; [|split; [|split; [|split]]]].
  - intros s o. by rewrite Hand, !raw_eq_true.
  - intros s o. rewrite !Hand. intros [Hv Ha].
    split; by apply raw_eq_sym_true.
  - intros s1 s2 s3. rewrite !Hand. intros [Hv1 Ha1] [Hv2 Ha2].
    split; by eapply raw_eq_trans.
  - intros s o Hv Ha. unfold RawState.equals.
    rewrite <- (raw_eq_sym (AbstractState._varToAbsVal s)) by (by left).
    rewrite <- (raw_eq_sym (AbstractState._addrToAbsVal s)) by (by left).
    destruct (raw_eq_returns (AbstractState._varToAbsVal s)
                (AbstractState._varToAbsVal o)) as [bv ->]; [by left|].
    destruct (raw_eq_returns (AbstractState._addrToAbsVal s)
                (AbstractState._addrToAbsVal o)) as [ba ->]; [by left|].
    simpl. destruct bv; eauto.
  - intros s Hv Ha. apply Hand. split; by apply raw_eq_refl.
  - intros s key [Hk | Hk]; unfold RawState.equals.
    + by rewrite (proj2 (raw_eq_refl _) key Hk).
    + destruct (raw_eq_refl_cases (AbstractState._varToAbsVal s)) as [-> | ->];
        simpl; [|done].
      by rewrite (proj2 (raw_eq_refl _) key Hk).
Qed.

Lemma raw_state_equals_witness :
  RawState.equals untagged_state untagged_state = Raise AttributeError ∧
  RawState.equals (raw_state state1) (raw_state state1) = Ok true.
Proof.
  destruct raw_state_equals as (_ & _ & _ & _ & Hrefl & Hraise).
  split.
  - apply (Hraise untagged_state 1). left. reflexivity.
  - apply Hrefl; apply tagged_fmap.
Defined.

(** ** Instances with and without a tag: __ge__ *)

(** X15: [__ge__] answers [True] exactly when the receiver holds, for
    every key of [other] in each store, an instance with the same tag that
    contains [other]'s; an instance without a tag on either side makes it
    answer [False].  It is transitive; a state is [>=] itself exactly when
    all its instances have a tag and none holds a bottom interval, and
    otherwise it is [<] itself, [__lt__] being the negation of [__ge__];
    and every state is [>=] the empty state. *)
Theorem raw_state_ge_order :
  (∀ s o : AbstractState RawValue,
     RawState.ge s o = true ↔
     (∀ key ov, AbstractState._varToAbsVal o !! key = Some ov →
        ∃ sv, AbstractState._varToAbsVal s !! key = Some sv ∧
              RawState.ge_value sv ov = true) ∧
     (∀ key ov, AbstractState._addrToAbsVal o !! key = Some ov →
        ∃ sv, AbstractState._addrToAbsVal s !! key = Some sv ∧
              RawState.ge_value sv ov = true)) ∧
  (∀ v : RawValue,
     RawState.ge_value Untagged v = false ∧
     RawState.ge_value v Untagged = false) ∧
  (∀ s1 s2 s3 : AbstractState RawValue,
     RawState.ge s1 s2 = true → RawState.ge s2 s3 = true →
     RawState.ge s1 s3 = true) ∧
  (∀ s : AbstractState RawValue,
     RawState.ge s s = true ↔
     (RawState.tagged (AbstractState._varToAbsVal s) ∧
      RawState.no_bottom (AbstractState._varToAbsVal s)) ∧
     (RawState.tagged (AbstractState._addrToAbsVal s) ∧
      RawState.no_bottom (AbstractState._addrToAbsVal s))) ∧
  (∀ s : AbstractState RawValue,
     RawState.lt s s = false ↔
     (RawState.tagged (AbstractState._varToAbsVal s) ∧
      RawState.no_bottom (AbstractState._varToAbsVal s)) ∧
     (RawState.tagged (AbstractState._addrToAbsVal s) ∧
      RawState.no_bottom (AbstractState._addrToAbsVal s))) ∧
  (∀ s : AbstractState RawValue, RawState.ge s (State ∅ ∅) = true).
Proof.
  unfold RawState.lt, RawState.ge.
  split; [|split; [|split; [|split; [|split]]]].
  - intros s o. by rewrite andb_true_iff, !raw_ge_dict_spec.
  - intros [[?|?]|]; done.
  - intros s1 s2 s3. rewrite !andb_true_iff. intros [Hv1 Ha1] [Hv2 Ha2].
    split; by eapply raw_ge_dict_trans.
  - intros s. by rewrite andb_true_iff, !raw_ge_dict_refl.
  - intros s. by rewrite negb_false_iff, andb_true_iff, !raw_ge_dict_refl.
  - intros s. reflexivity.
Qed.

Lemma raw_state_ge_order_witness :
  RawState.ge (raw_state state1) (raw_state state1) = true ∧
  RawState.lt untagged_state untagged_state = true.
Proof.
  destruct raw_state_ge_order as (_ & _ & _ & Hrefl & Hlt & _).
  split.
  - apply Hrefl.
    destruct no_bottom_raw_state1 as [Hv Ha].
    split; (split; [apply tagged_fmap|done]).
  - destruct (RawState.lt untagged_state untagged_state) eqn:Hl; [done|].
    apply Hlt in Hl as [[Ht _] _]. by destruct (Ht 1).
Defined.

(** ** Instances with and without a tag: the merges *)

(** X16: [joinWith] returns exactly when, in each store, every instance
    of [other] has a tag and every key both states hold has instances of
    the same [_type].  Otherwise it raises [ValueError] or
    [AssertionError]; the latter only for an instance without a tag that
    [other] holds under a key the receiver lacks. *)
Theorem raw_joinWith_returns_iff (self other : AbstractState RawValue) :
  (RawState.joinable (AbstractState._varToAbsVal self)
                     (AbstractState._varToAbsVal other) ∧
   RawState.joinable (AbstractState._addrToAbsVal self)
                     (AbstractState._addrToAbsVal other)
   ↔ ∃ joined, RawState.joinWith self other = Ok joined) ∧
  (∀ e, RawState.joinWith self other = Raise e →
        e = ValueError ∨ e = AssertionError) ∧
  (RawState.joinWith self other = Raise AssertionError →
   ∃ key,
     (AbstractState._varToAbsVal other !! key = Some Untagged ∧
      AbstractState._varToAbsVal self !! key = None) ∨
     (AbstractState._addrToAbsVal other !! key = Some Untagged ∧
      AbstractState._addrToAbsVal self !! key = None)).
Proof.
  unfold RawState.joinWith.
  rewrite !raw_joinable_iff.
  pose proof (raw_joinWith_dict_spec (AbstractState._varToAbsVal self)
                (AbstractState._varToAbsVal other)) as Sv.
  pose proof (raw_joinWith_dict_spec (AbstractState._addrToAbsVal self)
                (AbstractState._addrToAbsVal other)) as Sa.
  destruct (RawState.joinWith_dict (AbstractState._varToAbsVal self)
              (AbstractState._varToAbsVal other)) as [dv|ev] eqn:Hv; simpl.
  - destruct (RawState.joinWith_dict (AbstractState._addrToAbsVal self)
                (AbstractState._addrToAbsVal other)) as [da|ea] eqn:Ha; simpl.
    + split; [|split; done]. split; eauto.
    + split; [|split].
      * split; [intros [_ [? ?]]; done | intros [? ?]; done].
      * intros e [= <-]. by eapply raw_joinWith_dict_exn.
      * intros [= ->].
        destruct Sa as [[? | [_ (key & Ho & Hs)]] _]; [done|].
        exists key. by right.
  - split; [|split].
    + split; [intros [[? ?] _]; done | intros [? ?]; done].
    + intros e [= <-]. by eapply raw_joinWith_dict_exn.
    + intros [= ->].
      destruct Sv as [[? | [_ (key & Ho & Hs)]] _]; [done|].
      exists key. by left.
Qed.

Lemma raw_joinWith_returns_iff_witness :
  (∃ joined,
     RawState.joinWith (raw_state state1) (raw_state state2) = Ok joined) ∧
  (RawState.joinWith (State ∅ ∅) untagged_state = Raise ValueError ∨
   RawState.joinWith (State ∅ ∅) untagged_state = Raise AssertionError).
Proof.
  split.
  - apply (proj1 (proj1 (raw_joinWith_returns_iff (raw_state state1)
                           (raw_state state2)))).
    exact joinable_raw_state1_state2.
  - destruct (RawState.joinWith (State ∅ ∅) untagged_state) as [j|e] eqn:He.
    + exfalso. vm_compute in He. discriminate He.
    + destruct (proj1 (proj2 (raw_joinWith_returns_iff (State ∅ ∅)
                                untagged_state)) e He) as [-> | ->];
        [by left | by right].
Defined.

(** X18: when [joinWith] returns, the receiver is [>=] [other] if [other]
    holds no bottom interval, and [>=] what the receiver was before if
    that held only instances with a tag and no bottom interval. *)
Theorem raw_joinWith_upper_bound (self other joined : AbstractState RawValue) :
  RawState.joinWith self other = Ok joined →
  (RawState.no_bottom (AbstractState._varToAbsVal other) →
   RawState.no_bottom (AbstractState._addrToAbsVal other) →
   RawState.ge joined other = true) ∧
  (RawState.tagged (AbstractState._varToAbsVal self) →
   RawState.tagged (AbstractState._addrToAbsVal self) →
   RawState.no_bottom (AbstractState._varToAbsVal self) →
   RawState.no_bottom (AbstractState._addrToAbsVal self) →
   RawState.ge joined self = true).
Proof.
  unfold RawState.joinWith, RawState.ge. intros H.
  destruct (RawState.joinWith_dict (AbstractState._varToAbsVal self)
              (AbstractState._varToAbsVal other)) as [dv|ev] eqn:Hv;
    simpl in H; [|done].
  destruct (RawState.joinWith_dict (AbstractState._addrToAbsVal self)
              (AbstractState._addrToAbsVal other)) as [da|ea] eqn:Ha;
    simpl in H; [|done].
  injection H as <-. simpl. split.
  - intros Hnv Hna.
    by rewrite (raw_joinWith_dict_ge_other _ _ _ Hv Hnv),
               (raw_joinWith_dict_ge_other _ _ _ Ha Hna).
  - intros Htv Hta Hnv Hna.
    by rewrite (raw_joinWith_dict_ge_self _ _ _ Hv Htv Hnv),
               (raw_joinWith_dict_ge_self _ _ _ Ha Hta Hna).
Qed.

Lemma raw_joinWith_upper_bound_witness :
  ∃ joined,
    RawState.joinWith (raw_state state1) (raw_state state2) = Ok joined ∧
    RawState.ge joined (raw_state state2) = true ∧
    RawState.ge joined (raw_state state1) = true.
Proof.
  destruct (proj1 (raw_joinable_iff _ _) (proj1 joinable_raw_state1_state2))
    as [dv Hdv].
  destruct (proj1 (raw_joinable_iff _ _) (proj2 joinable_raw_state1_state2))
    as [da Hda].
  assert (RawState.joinWith (raw_state state1) (raw_state state2)
          = Ok (State dv da)) as Hj.
  { unfold RawState.joinWith. by rewrite Hdv, Hda. }
  exists (State dv da). split; [exact Hj|].
  destruct no_bottom_raw_state1 as [Hv1 Ha1], no_bottom_raw_state2 as [Hv2 Ha2].
  destruct (raw_joinWith_upper_bound _ _ _ Hj) as [Ho Hs].
  split; [by apply Ho|]. apply Hs; first [apply tagged_fmap | done].
Defined.

(** X19: [meetWith] never adds a key: each store of the result has only
    keys that both operands held.  A key both operands held with the same
    tag survives only with an interval that is not bottom or an address
    set that is not empty; a key both held with different [_type]s, or
    with no tag in the receiver, keeps the receiver's instance.  And a
    receiver that held only instances with a tag and no bottom interval is
    [>=] the result. *)
Theorem raw_meetWith_lower_bound (self other : AbstractState RawValue) :
  dom (AbstractState._varToAbsVal (RawState.meetWith self other))
  ⊆ dom (AbstractState._varToAbsVal self) ∩ dom (AbstractState._varToAbsVal other) ∧
  dom (AbstractState._addrToAbsVal (RawState.meetWith self other))
  ⊆ dom (AbstractState._addrToAbsVal self) ∩ dom (AbstractState._addrToAbsVal other) ∧
  (∀ key ty sv ov v,
     RawValue._type sv = Some ty → RawValue._type ov = Some ty →
     (AbstractState._varToAbsVal self !! key = Some sv ∧
      AbstractState._varToAbsVal other !! key = Some ov ∧
      AbstractState._varToAbsVal (RawState.meetWith self other) !! key
      = Some v) ∨
     (AbstractState._addrToAbsVal self !! key = Some sv ∧
      AbstractState._addrToAbsVal other !! key = Some ov ∧
      AbstractState._addrToAbsVal (RawState.meetWith self other) !! key
      = Some v) →
     match v with
     | Tagged (IntervalV i) => IntervalValue.is_bottom i = false
     | Tagged (AddressV a) => AddressValue.get_addrs a ≠ ∅
     | Untagged => False
     end) ∧
  (∀ key sv ov,
     RawValue._type sv ≠ RawValue._type ov ∨ sv = Untagged →
     (AbstractState._varToAbsVal self !! key = Some sv →
      AbstractState._varToAbsVal other !! key = Some ov →
      AbstractState._varToAbsVal (RawState.meetWith self other) !! key
      = Some sv) ∧
     (AbstractState._addrToAbsVal self !! key = Some sv →
      AbstractState._addrToAbsVal other !! key = Some ov →
      AbstractState._addrToAbsVal (RawState.meetWith self other) !! key
      = Some sv)) ∧
  (RawState.tagged (AbstractState._varToAbsVal self) →
   RawState.tagged (AbstractState._addrToAbsVal self) →
   RawState.no_bottom (AbstractState._varToAbsVal self) →
   RawState.no_bottom (AbstractState._addrToAbsVal self) →
   RawState.ge self (RawState.meetWith self other) = true).
Proof.
  split; [apply raw_meetWith_dict_dom|].
  split; [apply raw_meetWith_dict_dom|].
  split; [|split].
  - intros key ty sv ov v Hts Hto [(Hs & Ho & Hv) | (Hs & Ho & Hv)];
      exact (raw_meetWith_dict_no_bottom _ _ key ty sv ov v Hs Ho Hts Hto Hv).
  - intros key sv ov H. split; intros Hs Ho;
      by eapply raw_meetWith_dict_keep.
  - intros Htv Hta Hnv Hna. unfold RawState.ge, RawState.meetWith. simpl.
    by rewrite !raw_meetWith_dict_ge.
Qed.

Lemma raw_meetWith_lower_bound_witness :
  RawState.ge (raw_state state1)
              (RawState.meetWith (raw_state state1) (raw_state state2)) = true ∧
  AbstractState._varToAbsVal
    (RawState.meetWith untagged_state (raw_state state2)) !! 1
  = Some Untagged.
Proof.
  split.
  - destruct no_bottom_raw_state1 as [Hv Ha].
    apply (raw_meetWith_lower_bound (raw_state state1) (raw_state state2));
      first [apply tagged_fmap | done].
  - destruct (raw_meetWith_lower_bound untagged_state (raw_state state2))
      as (_ & _ & _ & Hkeep & _).
    apply (proj1 (Hkeep 1 Untagged (Tagged (iv 3 10)) (or_intror eq_refl)));
      reflexivity.
Defined.



(** X21: on a state all of whose instances have a tag, merging the state
    with itself changes nothing under [widening] and [joinWith]:
    [s.widening(s)] is [s] and [s.joinWith(s)] leaves [s].  A key that
    holds an instance without a tag is missing from [s.widening(s)], and
    with such a key in either store [s.joinWith(s)] raises
    [ValueError]. *)
Theorem raw_widening_joinWith_idempotent (s : AbstractState RawValue) :
  (RawState.tagged (AbstractState._varToAbsVal s) →
   RawState.tagged (AbstractState._addrToAbsVal s) →
   RawState.widening s s = s ∧ RawState.joinWith s s = Ok s) ∧
  (∀ key,
     (AbstractState._varToAbsVal s !! key = Some Untagged →
      AbstractState._varToAbsVal (RawState.widening s s) !! key = None) ∧
     (AbstractState._addrToAbsVal s !! key = Some Untagged →
      AbstractState._addrToAbsVal (RawState.widening s s) !! key = None)) ∧
  (∀ key,
     AbstractState._varToAbsVal s !! key = Some Untagged ∨
     AbstractState._addrToAbsVal s !! key = Some Untagged →
     RawState.joinWith s s = Raise ValueError).
Proof.
  split; [|split].
  - intros Hv Ha. split.
    + apply state_ext; simpl; by apply raw_widening_dict_idemp.
    + unfold RawState.joinWith. rewrite !raw_joinWith_dict_idemp by done.
      simpl. by destruct s.
  - intros key. split; intros Hk;
      apply (raw_widening_dict_drop _ _ key Untagged Untagged Hk Hk);
      by right.
  - intros key [Hk | Hk]; unfold RawState.joinWith.
    + by rewrite (raw_joinWith_dict_untagged _ key Hk).
    + destruct (raw_joinWith_dict_self (AbstractState._varToAbsVal s))
        as [[d' ->] | ->]; simpl; [|done].
      by rewrite (raw_joinWith_dict_untagged _ key Hk).
Qed.

Lemma raw_widening_joinWith_idempotent_witness :
  (RawState.widening (raw_state state2) (raw_state state2) = raw_state state2 ∧
   RawState.joinWith (raw_state state2) (raw_state state2)
   = Ok (raw_state state2)) ∧
  RawState.joinWith untagged_state untagged_state = Raise ValueError.
Proof.
  split.
  - apply (proj1 (raw_widening_joinWith_idempotent (raw_state state2)));
      apply tagged_fmap.
  - apply (proj2 (proj2 (raw_widening_joinWith_idempotent untagged_state)) 1).
    left. reflexivity.
Defined.
